(** * ElectronsFiller: a shallow embedding of Producer/src/ElectronsFiller.cc

    The filler reads the electron candidates of one event, keeps those that
    pass the kinematic cuts and the veto identification, fills one output
    electron per kept candidate, orders the output collection by transverse
    momentum and records the links between input and output objects.  A later
    pass, [setRefs], turns the recorded supercluster links into references
    into the output supercluster collection.

    Modelling conventions.
    - [double] quantities are rationals ([Q]); comparisons are those of the
      order on [Q].  Rounding and not-a-number are outside the model.
    - An [edm::Ref] / [edm::Ptr] is the key of the object in its collection
      (a [nat]); two references are equal when their keys are.
    - A pointer to an output electron is its position in the output
      collection.
    - A C++ exception is the [Throw] branch of [result]. *)

From Stdlib Require Import QArith Qabs Sorted Permutation.
From stdpp Require Import gmap strings list fin_maps.

(** ** Numbers *)

(** [x < y] on doubles. *)
Definition Qltb (x y : Q) : bool := negb (Qle_bool y x).

(** ** Exceptions *)

Inductive Exception : Type :=
| Configuration (what : string)   (* edm::Exception(edm::errors::Configuration, what) *)
| OutOfRange.                     (* std::out_of_range, or an access past the end *)

Inductive result (A : Type) : Type :=
| Ok (a : A)
| Throw (e : Exception).
Arguments Ok {A} a.
Arguments Throw {A} e.

#[global] Instance result_ret : MRet result := fun A a => Ok a.

#[global] Instance result_bind : MBind result := fun A B k r =>
  match r with
  | Ok a => k a
  | Throw e => Throw e
  end.

(** [v.at(i)] on a vector. *)
Definition vec_at {A : Type} (v : list A) (i : nat) : result A :=
  match v !! i with
  | Some a => Ok a
  | None => Throw OutOfRange
  end.

(** ** Effective-area tables *)

(** Modelled from the spec: the effective-area table class is declared outside
    the filler.  A table is an ordered sequence of (upper bound, coefficient)
    pairs; the lookup returns the coefficient of the first bound exceeding the
    query value, and the open last bin covers all remaining values. *)
Record EffectiveAreas : Type := {
  ea_bins : list (Q * Q);
  ea_last : Q
}.

Fixpoint ea_lookup (bins : list (Q * Q)) (last x : Q) : Q :=
  match bins with
  | [] => last
  | (bound, coeff) :: rest =>
      if Qltb x bound then coeff else ea_lookup rest last x
  end.

Definition getEffectiveArea (t : EffectiveAreas) (x : Q) : Q :=
  ea_lookup (ea_bins t) (ea_last t) x.

(** ** Input objects *)

Record PFIsolationVariables : Type := {
  sumChargedHadronPt : Q;
  sumNeutralHadronEt : Q;
  sumPhotonEt : Q;
  sumPUPt : Q
}.

(** The two members read when the candidate is a [pat::Electron]. *)
Record PatIso : Type := {
  ecalPFClusterIso : Q;
  hcalPFClusterIso : Q
}.

Record GsfElectron : Type := {
  gsf_pt : Q;
  gsf_eta : Q;
  gsf_phi : Q;
  gsf_mass : Q;
  gsf_charge : Z;
  full5x5_sigmaIetaIeta : Q;
  full5x5_sigmaIphiIphi : Q;
  hadronicOverEm : Q;
  pfIsolationVariables : PFIsolationVariables;
  gsf_superCluster : nat;          (* key of the supercluster reference *)
  gsf_pat : option PatIso          (* [Some] when dynamic_cast<pat::Electron const*> succeeds *)
}.

Record Photon : Type := {
  ph_superCluster : nat
}.

Record TriggerObject : Type := {
  to_eta : Q;
  to_phi : Q;
  to_filterLabels : list string
}.

Definition hasFilterLabel (obj : TriggerObject) (label : string) : bool :=
  existsb (String.eqb label) (to_filterLabels obj).

(** What one [edm::Event] delivers to [fill].  Value maps are indexed by the
    key of the reference they are read with. *)
Record Event : Type := {
  inElectrons : list GsfElectron;
  photons : list Photon;
  vetoId : nat -> bool;
  looseId : nat -> bool;
  mediumId : nat -> bool;
  tightId : nat -> bool;
  phCHIso : nat -> Q;
  phNHIso : nat -> Q;
  phPhIso : nat -> Q;
  ecalIsoProduct : nat -> Q;       (* read only when its token is initialized *)
  hcalIsoProduct : nat -> Q;
  rho : Q;
  rhoCentralCalo : Q;
  triggerObjects : list TriggerObject;
  isRealData : bool;
  superClusterEta : nat -> Q       (* eta of the supercluster behind a reference *)
}.

(** ** Output objects *)

Record PElectron : Type := {
  pt : Q;
  eta : Q;
  phi : Q;
  mass : Q;
  veto : bool;
  loose : bool;
  medium : bool;
  tight : bool;
  q : Z;
  sieie : Q;
  sipip : Q;
  hOverE : Q;
  chiso : Q;
  nhiso : Q;
  phoiso : Q;
  puiso : Q;
  isoPUOffset : Q;
  ecaliso : Q;
  hcaliso : Q;
  chisoPh : Q;
  nhisoPh : Q;
  phisoPh : Q;
  matchHLT : nat -> bool;          (* bool matchHLT[nElectronHLTObjects] *)
  tauDecay : bool;
  hadDecay : bool;
  superCluster : option nat        (* reference into the output superclusters *)
}.

Definition set_photonIso (ch nh ph : Q) (e : PElectron) : PElectron :=
  {| pt := pt e; eta := eta e; phi := phi e; mass := mass e;
     veto := veto e; loose := loose e; medium := medium e; tight := tight e;
     q := q e; sieie := sieie e; sipip := sipip e; hOverE := hOverE e;
     chiso := chiso e; nhiso := nhiso e; phoiso := phoiso e; puiso := puiso e;
     isoPUOffset := isoPUOffset e; ecaliso := ecaliso e; hcaliso := hcaliso e;
     chisoPh := ch; nhisoPh := nh; phisoPh := ph;
     matchHLT := matchHLT e; tauDecay := tauDecay e; hadDecay := hadDecay e;
     superCluster := superCluster e |}.

Definition set_matchHLT (iF : nat) (e : PElectron) : PElectron :=
  {| pt := pt e; eta := eta e; phi := phi e; mass := mass e;
     veto := veto e; loose := loose e; medium := medium e; tight := tight e;
     q := q e; sieie := sieie e; sipip := sipip e; hOverE := hOverE e;
     chiso := chiso e; nhiso := nhiso e; phoiso := phoiso e; puiso := puiso e;
     isoPUOffset := isoPUOffset e; ecaliso := ecaliso e; hcaliso := hcaliso e;
     chisoPh := chisoPh e; nhisoPh := nhisoPh e; phisoPh := phisoPh e;
     matchHLT := fun i => if Nat.eqb i iF then true else matchHLT e i;
     tauDecay := tauDecay e; hadDecay := hadDecay e;
     superCluster := superCluster e |}.

Definition set_decays (tau had : bool) (e : PElectron) : PElectron :=
  {| pt := pt e; eta := eta e; phi := phi e; mass := mass e;
     veto := veto e; loose := loose e; medium := medium e; tight := tight e;
     q := q e; sieie := sieie e; sipip := sipip e; hOverE := hOverE e;
     chiso := chiso e; nhiso := nhiso e; phoiso := phoiso e; puiso := puiso e;
     isoPUOffset := isoPUOffset e; ecaliso := ecaliso e; hcaliso := hcaliso e;
     chisoPh := chisoPh e; nhisoPh := nhisoPh e; phisoPh := phisoPh e;
     matchHLT := matchHLT e; tauDecay := tau; hadDecay := had;
     superCluster := superCluster e |}.

Definition set_superCluster (ref : nat) (e : PElectron) : PElectron :=
  {| pt := pt e; eta := eta e; phi := phi e; mass := mass e;
     veto := veto e; loose := loose e; medium := medium e; tight := tight e;
     q := q e; sieie := sieie e; sipip := sipip e; hOverE := hOverE e;
     chiso := chiso e; nhiso := nhiso e; phoiso := phoiso e; puiso := puiso e;
     isoPUOffset := isoPUOffset e; ecaliso := ecaliso e; hcaliso := hcaliso e;
     chisoPh := chisoPh e; nhisoPh := nhisoPh e; phisoPh := phisoPh e;
     matchHLT := matchHLT e; tauDecay := tauDecay e; hadDecay := hadDecay e;
     superCluster := Some ref |}.

(** ** What the filler takes from outside this file

    The number of trigger filter categories and the state of a freshly created
    output electron are declared with the output data format, and the angular
    separation comes with the framework; the filler is modelled over any
    choice of the three. *)
Class Externals : Type := {
  nElectronHLTObjects : nat;                      (* panda::nElectronHLTObjects *)
  create_back : PElectron;                        (* the element appended by create_back() *)
  deltaR : GsfElectron -> TriggerObject -> Q      (* reco::deltaR *)
}.

(** ** Configuration and construction *)

(** The parameters the constructor reads.  A correction-table parameter stands
    for the table loaded from the file it names; an optional parameter is an
    [option]; [cfg_ecalIso] and [cfg_hcalIso] say whether the optional input
    tag is given. *)
Record ParameterSet : Type := {
  cfg_combIsoEA : EffectiveAreas;
  cfg_ecalIsoEA : EffectiveAreas;
  cfg_hcalIsoEA : EffectiveAreas;
  cfg_phCHIsoEA : EffectiveAreas;
  cfg_phNHIsoEA : EffectiveAreas;
  cfg_phPhIsoEA : EffectiveAreas;
  cfg_minPt : option Q;
  cfg_maxEta : option Q;
  cfg_ecalIso : bool;
  cfg_hcalIso : bool;
  cfg_useTrigger : bool;
  cfg_hltFilters : list string
}.

Record ElectronsFiller : Type := {
  combIsoEA_ : EffectiveAreas;
  ecalIsoEA_ : EffectiveAreas;
  hcalIsoEA_ : EffectiveAreas;
  phCHIsoEA_ : EffectiveAreas;
  phNHIsoEA_ : EffectiveAreas;
  phPhIsoEA_ : EffectiveAreas;
  minPt_ : Q;
  maxEta_ : Q;
  ecalIsoToken_ : bool;            (* true when the token is initialized *)
  hcalIsoToken_ : bool;
  useTrigger_ : bool;
  hltFilters_ : list string
}.

Definition with_hltFilters (filters : list string) (f : ElectronsFiller) : ElectronsFiller :=
  {| combIsoEA_ := combIsoEA_ f; ecalIsoEA_ := ecalIsoEA_ f; hcalIsoEA_ := hcalIsoEA_ f;
     phCHIsoEA_ := phCHIsoEA_ f; phNHIsoEA_ := phNHIsoEA_ f; phPhIsoEA_ := phPhIsoEA_ f;
     minPt_ := minPt_ f; maxEta_ := maxEta_ f;
     ecalIsoToken_ := ecalIsoToken_ f; hcalIsoToken_ := hcalIsoToken_ f;
     useTrigger_ := useTrigger_ f; hltFilters_ := filters |}.

(** ElectronsFiller::ElectronsFiller.  The six tables of the initializer
    list are taken as loaded and the mandatory parameters as present: a
    failure of those reads happens in code outside this file and is not
    modelled.  What is modelled is the body of the constructor. *)
Definition ElectronsFiller_new `{Externals} (cfg : ParameterSet) : result ElectronsFiller :=
  let f :=
    {| combIsoEA_ := cfg_combIsoEA cfg;
       ecalIsoEA_ := cfg_ecalIsoEA cfg;
       hcalIsoEA_ := cfg_hcalIsoEA cfg;
       phCHIsoEA_ := cfg_phCHIsoEA cfg;
       phNHIsoEA_ := cfg_phNHIsoEA cfg;
       phPhIsoEA_ := cfg_phPhIsoEA cfg;
       minPt_ := default (-1)%Q (cfg_minPt cfg);
       maxEta_ := default 10%Q (cfg_maxEta cfg);
       ecalIsoToken_ := cfg_ecalIso cfg;
       hcalIsoToken_ := cfg_hcalIso cfg;
       useTrigger_ := cfg_useTrigger cfg;
       hltFilters_ := [] |} in
  if useTrigger_ f then
    let f' := with_hltFilters (cfg_hltFilters cfg) f in
    if negb (Nat.eqb (length (hltFilters_ f')) nElectronHLTObjects)
    then Throw (Configuration "ElectronsFiller")
    else Ok f'
  else Ok f.

(** ** The fill phase *)

Section Fill.
Context `{Externals}.
Variable f : ElectronsFiller.
Variable ev : Event.

(** Lines 94-103: the trigger objects of every filter category.  The array
    of vectors is a function of the category index; [push_back] on entry
    [iF] appends there. *)
Definition push_hltObject (iF : nat) (obj : TriggerObject)
    (arr : nat -> list TriggerObject) : nat -> list TriggerObject :=
  fun i => if Nat.eqb i iF then arr i ++ [obj] else arr i.

(** [hltFilters_[iF]]; in range once the constructor has checked the size. *)
Definition hltFilter (iF : nat) : string :=
  default EmptyString (hltFilters_ f !! iF).

Definition collect_hltObject (obj : TriggerObject)
    (arr : nat -> list TriggerObject) : nat -> list TriggerObject :=
  fold_left
    (fun a iF => if hasFilterLabel obj (hltFilter iF) then push_hltObject iF obj a else a)
    (seq 0 nElectronHLTObjects) arr.

Definition hltObjects : nat -> list TriggerObject :=
  if useTrigger_ f
  then fold_left (fun a obj => collect_hltObject obj a) (triggerObjects ev) (fun _ => [])
  else fun _ => [].

(** Modelled from the spec: fillP4 is a helper of the filler base class; it
    copies the kinematics of the candidate onto the output record. *)
Definition fillP4 (out : PElectron) (inElectron : GsfElectron) : PElectron :=
  {| pt := gsf_pt inElectron; eta := gsf_eta inElectron;
     phi := gsf_phi inElectron; mass := gsf_mass inElectron;
     veto := veto out; loose := loose out; medium := medium out; tight := tight out;
     q := q out; sieie := sieie out; sipip := sipip out; hOverE := hOverE out;
     chiso := chiso out; nhiso := nhiso out; phoiso := phoiso out; puiso := puiso out;
     isoPUOffset := isoPUOffset out; ecaliso := ecaliso out; hcaliso := hcaliso out;
     chisoPh := chisoPh out; nhisoPh := nhisoPh out; phisoPh := phisoPh out;
     matchHLT := matchHLT out; tauDecay := tauDecay out; hadDecay := hadDecay out;
     superCluster := superCluster out |}.

(** Lines 131-149: the identification flags, the charge, the shower shapes,
    the particle-flow sums and the pileup offset; the two calorimeter
    isolations are passed in. *)
Definition fillCommon (iEl : nat) (inElectron : GsfElectron) (veto0 : bool)
    (scEta ecal hcal : Q) (out : PElectron) : PElectron :=
  let pfIso := pfIsolationVariables inElectron in
  {| pt := pt out; eta := eta out; phi := phi out; mass := mass out;
     veto := veto0;
     loose := looseId ev iEl;
     medium := mediumId ev iEl;
     tight := tightId ev iEl;
     q := gsf_charge inElectron;
     sieie := full5x5_sigmaIetaIeta inElectron;
     sipip := full5x5_sigmaIphiIphi inElectron;
     hOverE := hadronicOverEm inElectron;
     chiso := sumChargedHadronPt pfIso;
     nhiso := sumNeutralHadronEt pfIso;
     phoiso := sumPhotonEt pfIso;
     puiso := sumPUPt pfIso;
     isoPUOffset := (getEffectiveArea (combIsoEA_ f) scEta * rho ev)%Q;
     ecaliso := ecal;
     hcaliso := hcal;
     chisoPh := chisoPh out; nhisoPh := nhisoPh out; phisoPh := phisoPh out;
     matchHLT := matchHLT out; tauDecay := tauDecay out; hadDecay := hadDecay out;
     superCluster := superCluster out |}.

(** Lines 151-163: the calorimeter-cluster isolations, from the candidate
    itself when it is a pat::Electron, from the side maps otherwise. *)
Definition caloIso (iEl : nat) (inElectron : GsfElectron) (scEta : Q) : result (Q * Q) :=
  match gsf_pat inElectron with
  | Some patElectron =>
      Ok ((ecalPFClusterIso patElectron
             - getEffectiveArea (ecalIsoEA_ f) scEta * rhoCentralCalo ev)%Q,
          (hcalPFClusterIso patElectron
             - getEffectiveArea (hcalIsoEA_ f) scEta * rhoCentralCalo ev)%Q)
  | None =>
      if negb (ecalIsoToken_ f)
      then Throw (Configuration "ECAL PF cluster iso missing")
      else
        let ecal := (ecalIsoProduct ev iEl
                       - getEffectiveArea (ecalIsoEA_ f) scEta * rhoCentralCalo ev)%Q in
        if negb (hcalIsoToken_ f)
        then Throw (Configuration "HCAL PF cluster iso missing")
        else
          Ok (ecal,
              (hcalIsoProduct ev iEl
                 - getEffectiveArea (hcalIsoEA_ f) scEta * rhoCentralCalo ev)%Q)
  end.

(** Lines 165-173: the scan of the photon collection.  [iPh] is the index
    variable of the source, which the loop body never advances. *)
Fixpoint photonLoop (scRef : nat) (scEta : Q) (iPh : nat) (phs : list Photon)
    (out : PElectron) : PElectron :=
  match phs with
  | [] => out
  | photon :: rest =>
      let out' :=
        if Nat.eqb (ph_superCluster photon) scRef then
          let photonRef := iPh in
          set_photonIso
            (phCHIso ev photonRef - getEffectiveArea (phCHIsoEA_ f) scEta * rho ev)%Q
            (phNHIso ev photonRef - getEffectiveArea (phNHIsoEA_ f) scEta * rho ev)%Q
            (phPhIso ev photonRef - getEffectiveArea (phPhIsoEA_ f) scEta * rho ev)%Q
            out
        else out in
      photonLoop scRef scEta iPh rest out'
  end.

(** Lines 177-182: the scan of one category; the result is the position at
    which the loop breaks, if it does. *)
Fixpoint matchScan (inElectron : GsfElectron) (objs : list TriggerObject) : option nat :=
  match objs with
  | [] => None
  | obj :: rest =>
      if Qltb (deltaR inElectron obj) (3 # 10)
      then Some 0%nat
      else S <$> matchScan inElectron rest
  end.

(** Lines 175-184. *)
Definition triggerMatch (hlt : nat -> list TriggerObject) (inElectron : GsfElectron)
    (out : PElectron) : PElectron :=
  if useTrigger_ f then
    fold_left
      (fun o iF =>
         match matchScan inElectron (hlt iF) with
         | Some _ => set_matchHLT iF o
         | None => o
         end)
      (seq 0 nElectronHLTObjects) out
  else out.

(** Lines 124-189: the body of the loop for a candidate that passed the
    selection. *)
Definition fillElectron (hlt : nat -> list TriggerObject) (iEl : nat)
    (inElectron : GsfElectron) (veto0 : bool) : result PElectron :=
  let scRef := gsf_superCluster inElectron in
  let out := fillP4 create_back inElectron in
  let scEta := Qabs (superClusterEta ev scRef) in
  '(ecal, hcal) ← caloIso iEl inElectron scEta;
  let out := fillCommon iEl inElectron veto0 scEta ecal hcal out in
  let out := photonLoop scRef scEta 0 (photons ev) out in
  let out := triggerMatch hlt inElectron out in
  let out := if negb (isRealData ev) then set_decays false false out else out in
  Ok out.

(** Lines 109-192: the loop over the input electrons.  [iEl] is the index
    of the head of [els]; [outs] and [ptrList] are the output collection and
    the pointer list built so far. *)
Fixpoint fillLoop (hlt : nat -> list TriggerObject) (iEl : nat) (els : list GsfElectron)
    (outs : list PElectron) (ptrList : list nat) : result (list PElectron * list nat) :=
  match els with
  | [] => Ok (outs, ptrList)
  | inElectron :: rest =>
      if Qltb (gsf_pt inElectron) (minPt_ f) then
        fillLoop hlt (S iEl) rest outs ptrList
      else if Qltb (maxEta_ f) (Qabs (gsf_eta inElectron)) then
        fillLoop hlt (S iEl) rest outs ptrList
      else
        let veto0 := vetoId ev iEl in
        if negb veto0 then
          fillLoop hlt (S iEl) rest outs ptrList
        else
          outElectron ← fillElectron hlt iEl inElectron veto0;
          fillLoop hlt (S iEl) rest (outs ++ [outElectron]) (ptrList ++ [iEl])
  end.

End Fill.

(** ** Ranking of the output collection *)

(** Modelled from the spec: the comparison used for the ranking is declared
    with the output data format; it orders by descending transverse
    momentum. *)
Definition ptGreater (a b : PElectron) : bool := Qltb (pt b) (pt a).

(** Modelled from the spec: the sort of the output collection is a member of
    the collection class, declared with the output data format.  It sorts
    stably by the given comparison and returns, for each final position, the
    position the element had before the sort.  The elements travel with
    their original positions; an element is inserted in front of the first
    one that does not come strictly before it. *)
Fixpoint sort_insert (cmp : PElectron -> PElectron -> bool)
    (x : nat * PElectron) (l : list (nat * PElectron)) : list (nat * PElectron) :=
  match l with
  | [] => [x]
  | y :: l' =>
      if cmp (snd y) (snd x) then y :: sort_insert cmp x l' else x :: y :: l'
  end.

Definition sort_indexed (cmp : PElectron -> PElectron -> bool)
    (l : list (nat * PElectron)) : list (nat * PElectron) :=
  foldr (sort_insert cmp) [] l.

Definition sort (cmp : PElectron -> PElectron -> bool) (c : list PElectron)
    : list PElectron * list nat :=
  let s := sort_indexed cmp (zip (seq 0 (length c)) c) in
  (s.*2, s.*1).

(** ** Identity maps *)

(** Modelled from the spec: the object map is declared in the filler base
    interface.  It is a bidirectional mapping between the identity of an input
    object and an output record, built by adding one association at a time.
    Here an addition under a key that is already present replaces the
    entry. *)
Record ObjectMap : Type := {
  fwdMap : gmap nat nat;           (* input identity -> output record *)
  bwdMap : gmap nat nat            (* output record -> input identity *)
}.

Definition ObjectMap_empty : ObjectMap := {| fwdMap := ∅; bwdMap := ∅ |}.

Definition ObjectMap_add (edm panda : nat) (m : ObjectMap) : ObjectMap :=
  {| fwdMap := <[edm := panda]> (fwdMap m);
     bwdMap := <[panda := edm]> (bwdMap m) |}.

(** What [fill] leaves behind: the output collection and the two maps. *)
Record FillOutput : Type := {
  outElectrons : list PElectron;
  eleEleMap : ObjectMap;
  scEleMap : ObjectMap
}.

(** Lines 201-206.  An index past the end of a vector is an [OutOfRange]
    here; [fill] never produces one (lemmas [fill_after_loop] and
    [fill_Throw_inv]). *)
Fixpoint mapLoop (ev : Event) (ptrList originalIndices : list nat) (iPs : list nat)
    (eleEle scEle : ObjectMap) : result (ObjectMap * ObjectMap) :=
  match iPs with
  | [] => Ok (eleEle, scEle)
  | iP :: rest =>
      idx ← vec_at originalIndices iP;
      ptr ← vec_at ptrList idx;
      inElectron ← vec_at (inElectrons ev) ptr;
      mapLoop ev ptrList originalIndices rest
        (ObjectMap_add ptr iP eleEle)
        (ObjectMap_add (gsf_superCluster inElectron) iP scEle)
  end.

(** ElectronsFiller::fill.  The maps of the event are empty when it starts. *)
Definition fill `{Externals} (f : ElectronsFiller) (ev : Event) : result FillOutput :=
  '(created, ptrList) ← fillLoop f ev (hltObjects f ev) 0 (inElectrons ev) [] [];
  let '(sorted, originalIndices) := sort ptGreater created in
  '(eleEle, scEle) ← mapLoop ev ptrList originalIndices (seq 0 (length sorted))
                       ObjectMap_empty ObjectMap_empty;
  Ok {| outElectrons := sorted; eleEleMap := eleEle; scEleMap := scEle |}.

(** ** Reference resolution *)

(** Lines 216-221: one link at a time; [scMap.at] throws on a missing key. *)
Fixpoint setRefsLoop (scMap : gmap nat nat) (links : list (nat * nat))
    (outs : list PElectron) : result (list PElectron) :=
  match links with
  | [] => Ok outs
  | (iP, scPtr) :: rest =>
      match scMap !! scPtr with
      | Some target => setRefsLoop scMap rest (alter (set_superCluster target) iP outs)
      | None => Throw OutOfRange
      end
  end.

(** ElectronsFiller::setRefs *)
Definition setRefs (out : FillOutput) (objectMaps : gmap string ObjectMap)
    : result (list PElectron) :=
  match objectMaps !! "superClusters"%string with
  | None => Throw OutOfRange
  | Some m => setRefsLoop (fwdMap m) (map_to_list (bwdMap (scEleMap out))) (outElectrons out)
  end.

(** ** The properties, as the specification words them *)

(** The selection: [pt >= minPt], [|eta| <= maxEta] and a true veto flag. *)
Definition selected (f : ElectronsFiller) (ev : Event) (iEl : nat) (e : GsfElectron) : Prop :=
  (minPt_ f <= gsf_pt e)%Q ∧ (Qabs (gsf_eta e) <= maxEta_ f)%Q ∧ vetoId ev iEl = true.

Definition selectedb (f : ElectronsFiller) (ev : Event) (iEl : nat) (e : GsfElectron) : bool :=
  Qle_bool (minPt_ f) (gsf_pt e) && Qle_bool (Qabs (gsf_eta e)) (maxEta_ f) && vetoId ev iEl.

(** The indices of the selected candidates, in input order. *)
Fixpoint selection (f : ElectronsFiller) (ev : Event) (iEl : nat) (els : list GsfElectron)
    : list nat :=
  match els with
  | [] => []
  | e :: rest =>
      if selectedb f ev iEl e
      then iEl :: selection f ev (S iEl) rest
      else selection f ev (S iEl) rest
  end.

(** The raw calorimeter-cluster sums of a candidate: the embedded ones of a
    pat::Electron, the entries of the side maps otherwise. *)
Definition raw_caloIso (ev : Event) (iEl : nat) (e : GsfElectron) : Q * Q :=
  match gsf_pat e with
  | Some patElectron => (ecalPFClusterIso patElectron, hcalPFClusterIso patElectron)
  | None => (ecalIsoProduct ev iEl, hcalIsoProduct ev iEl)
  end.

(** A member of the output record that none of the conditional writes of the
    loop body touches. *)
Definition plain_member {A : Type} (g : PElectron → A) : Prop :=
  (∀ ch nh ph o, g (set_photonIso ch nh ph o) = g o) ∧
  (∀ iF o, g (set_matchHLT iF o) = g o) ∧
  (∀ tau had o, g (set_decays tau had o) = g o).

(** The record a selected candidate is turned into. *)
Definition filled_from `{Externals} (f : ElectronsFiller) (ev : Event)
    (hlt : nat → list TriggerObject) (iEl : nat) (r : PElectron) : Prop :=
  ∃ e, inElectrons ev !! iEl = Some e ∧ selected f ev iEl e ∧
       fillElectron f ev hlt iEl e true = Ok r.

(** [raw − area(|eta|) × density] *)
Definition corrected (raw : Q) (table : EffectiveAreas) (absEta density : Q) : Q :=
  (raw - getEffectiveArea table absEta * density)%Q.

(** An identity map is an exact bijection over the [n] records of the output
    collection: every record has one entry and only one, in both directions,
    and every entry is the entry of a record. *)
Definition exact_bijection (n : nat) (m : ObjectMap) : Prop :=
  (∀ iP, iP < n →
     ∃ k, bwdMap m !! iP = Some k ∧ fwdMap m !! k = Some iP ∧
          ∀ k', fwdMap m !! k' = Some iP → k' = k) ∧
  (∀ k iP, fwdMap m !! k = Some iP → iP < n ∧ bwdMap m !! iP = Some k) ∧
  (∀ iP k, bwdMap m !! iP = Some k → iP < n ∧ fwdMap m !! k = Some iP).

(** The record at final position [iP] was made from the candidate at input
    position [iEl]. *)
Definition made_from (ev : Event) (out : FillOutput) (iP : nat) (r : PElectron)
    (iEl : nat) (e : GsfElectron) : Prop :=
  outElectrons out !! iP = Some r ∧
  bwdMap (eleEleMap out) !! iP = Some iEl ∧
  inElectrons ev !! iEl = Some e.

(** The order of the ranking on the elements paired with their positions
    before the sort: strictly larger transverse momentum first, and among
    equal ones the earlier position first. *)
Definition ranked_before (x y : nat * PElectron) : Prop :=
  (pt (snd y) < pt (snd x))%Q ∨ ((pt (snd x) == pt (snd y))%Q ∧ fst x < fst y).

(** Every isolation channel of every record holds the corrected sum: the
    particle-flow sums with the filler's own table and the pileup density,
    the calorimeter-cluster sums with their tables and the
    central-calorimeter density. *)
Definition all_channels_corrected `{Externals} (f : ElectronsFiller) (ev : Event) : Prop :=
  ∀ out iP r iEl e,
    fill f ev = Ok out → made_from ev out iP r iEl e →
    let absEta := Qabs (superClusterEta ev (gsf_superCluster e)) in
    let pfIso := pfIsolationVariables e in
    (chiso r == corrected (sumChargedHadronPt pfIso) (combIsoEA_ f) absEta (rho ev))%Q ∧
    (nhiso r == corrected (sumNeutralHadronEt pfIso) (combIsoEA_ f) absEta (rho ev))%Q ∧
    (phoiso r == corrected (sumPhotonEt pfIso) (combIsoEA_ f) absEta (rho ev))%Q ∧
    (ecaliso r == corrected (fst (raw_caloIso ev iEl e)) (ecalIsoEA_ f) absEta
                    (rhoCentralCalo ev))%Q ∧
    (hcaliso r == corrected (snd (raw_caloIso ev iEl e)) (hcalIsoEA_ f) absEta
                    (rhoCentralCalo ev))%Q.

(** A cut that is not configured rejects no candidate, whatever its
    kinematics. *)
Definition default_cuts_keep `{Externals} (cfg : ParameterSet) (e : GsfElectron) : Prop :=
  ∀ f, ElectronsFiller_new cfg = Ok f →
    (cfg_minPt cfg = None → Qltb (gsf_pt e) (minPt_ f) = false) ∧
    (cfg_maxEta cfg = None → Qltb (maxEta_ f) (Qabs (gsf_eta e)) = false).

(** Both identity maps of every returned output are exact bijections over
    its records. *)
Definition maps_are_bijections `{Externals} (f : ElectronsFiller) (ev : Event) : Prop :=
  ∀ out, fill f ev = Ok out →
    exact_bijection (length (outElectrons out)) (eleEleMap out) ∧
    exact_bijection (length (outElectrons out)) (scEleMap out).

(** No two selected candidates of the event share a supercluster. *)
Definition distinct_clusters (f : ElectronsFiller) (ev : Event) : Prop :=
  ∀ i j ei ej,
    inElectrons ev !! i = Some ei → inElectrons ev !! j = Some ej →
    selected f ev i ei → selected f ev j ej →
    gsf_superCluster ei = gsf_superCluster ej → i = j.

(** The links of the map loop.  Final position [iP] is linked to the input
    electron [ptr] and to its supercluster [sc]. *)
Definition linked (ev : Event) (ptrList originalIndices : list nat)
    (iP ptr sc : nat) : Prop :=
  ∃ idx e, originalIndices !! iP = Some idx ∧ ptrList !! idx = Some ptr ∧
           inElectrons ev !! ptr = Some e ∧ sc = gsf_superCluster e.

(** The three stages of a successful [fill]: the records created by the
    loop with the pointer list, the ranking with the original indices, and
    the maps. *)
Definition fill_stages `{Externals} (f : ElectronsFiller) (ev : Event) (out : FillOutput)
    (created : list PElectron) (ptrList idx : list nat) : Prop :=
  fillLoop f ev (hltObjects f ev) 0 (inElectrons ev) [] [] = Ok (created, ptrList) ∧
  sort ptGreater created = (outElectrons out, idx) ∧
  mapLoop ev ptrList idx (seq 0 (length (outElectrons out)))
    ObjectMap_empty ObjectMap_empty = Ok (eleEleMap out, scEleMap out).

(** A sequence of additions to a map, and to one of its two directions. *)
Definition add_links (kvs : list (nat * nat)) (m : ObjectMap) : ObjectMap :=
  foldl (λ m kv, ObjectMap_add (fst kv) (snd kv) m) m kvs.

Definition insert_all (kvs : list (nat * nat)) (g : gmap nat nat) : gmap nat nat :=
  foldl (λ g kv, <[fst kv := snd kv]> g) g kvs.

(** ** Concrete inputs *)

Definition flat_area (a : Q) : EffectiveAreas := {| ea_bins := []; ea_last := a |}.

Definition zero_PElectron : PElectron :=
  {| pt := 0; eta := 0; phi := 0; mass := 0;
     veto := false; loose := false; medium := false; tight := false;
     q := 0; sieie := 0; sipip := 0; hOverE := 0;
     chiso := 0; nhiso := 0; phoiso := 0; puiso := 0;
     isoPUOffset := 0; ecaliso := 0; hcaliso := 0;
     chisoPh := 0; nhisoPh := 0; phisoPh := 0;
     matchHLT := fun _ => false; tauDecay := false; hadDecay := false;
     superCluster := None |}.

(** An instance to run the model on: two filter categories, a zeroed fresh
    record, and the sum of the two coordinate distances as separation. *)
Definition demo_externals : Externals :=
  {| nElectronHLTObjects := 2;
     create_back := zero_PElectron;
     deltaR := fun e obj =>
       (Qabs (gsf_eta e - to_eta obj) + Qabs (gsf_phi e - to_phi obj))%Q |}.

Definition demo_config : ParameterSet :=
  {| cfg_combIsoEA := flat_area 1;
     cfg_ecalIsoEA := flat_area 1;
     cfg_hcalIsoEA := flat_area 1;
     cfg_phCHIsoEA := flat_area 0;
     cfg_phNHIsoEA := flat_area 0;
     cfg_phPhIsoEA := flat_area 0;
     cfg_minPt := None;
     cfg_maxEta := None;
     cfg_ecalIso := false;
     cfg_hcalIso := false;
     cfg_useTrigger := false;
     cfg_hltFilters := [] |}.

(** The filler the constructor builds from [demo_config]. *)
Definition demo_filler : ElectronsFiller :=
  {| combIsoEA_ := flat_area 1;
     ecalIsoEA_ := flat_area 1;
     hcalIsoEA_ := flat_area 1;
     phCHIsoEA_ := flat_area 0;
     phNHIsoEA_ := flat_area 0;
     phPhIsoEA_ := flat_area 0;
     minPt_ := (-1)%Q;
     maxEta_ := 10%Q;
     ecalIsoToken_ := false;
     hcalIsoToken_ := false;
     useTrigger_ := false;
     hltFilters_ := [] |}.

Definition demo_pfIso : PFIsolationVariables :=
  {| sumChargedHadronPt := 5; sumNeutralHadronEt := 6; sumPhotonEt := 7; sumPUPt := 8 |}.

(** A pat::Electron with the given kinematics and supercluster. *)
Definition patElectron (pt0 eta0 : Q) (sc : nat) : GsfElectron :=
  {| gsf_pt := pt0; gsf_eta := eta0; gsf_phi := 0; gsf_mass := 0; gsf_charge := (-1)%Z;
     full5x5_sigmaIetaIeta := 0; full5x5_sigmaIphiIphi := 0; hadronicOverEm := 0;
     pfIsolationVariables := demo_pfIso;
     gsf_superCluster := sc;
     gsf_pat := Some {| ecalPFClusterIso := 9; hcalPFClusterIso := 4 |} |}.

(** A plain reco::GsfElectron, with no embedded calorimeter isolation. *)
Definition recoElectron (pt0 eta0 : Q) (sc : nat) : GsfElectron :=
  {| gsf_pt := pt0; gsf_eta := eta0; gsf_phi := 0; gsf_mass := 0; gsf_charge := (-1)%Z;
     full5x5_sigmaIetaIeta := 0; full5x5_sigmaIphiIphi := 0; hadronicOverEm := 0;
     pfIsolationVariables := demo_pfIso;
     gsf_superCluster := sc;
     gsf_pat := None |}.

(** An event with the given electrons and photons, every candidate passing
    the veto identification, photon [i] carrying the sums [1 + 4 i],
    pileup density 2 and central-calorimeter density 3. *)
Definition demo_event (els : list GsfElectron) (phs : list Photon) : Event :=
  {| inElectrons := els;
     photons := phs;
     vetoId := fun _ => true;
     looseId := fun _ => false;
     mediumId := fun _ => false;
     tightId := fun _ => false;
     phCHIso := fun i => inject_Z (1 + 4 * Z.of_nat i);
     phNHIso := fun i => inject_Z (1 + 4 * Z.of_nat i);
     phPhIso := fun i => inject_Z (1 + 4 * Z.of_nat i);
     ecalIsoProduct := fun _ => 9%Q;
     hcalIsoProduct := fun _ => 4%Q;
     rho := 2;
     rhoCentralCalo := 3;
     triggerObjects := [];
     isRealData := true;
     superClusterEta := fun _ => 1%Q |}.

(** One electron of transverse momentum 50. *)
Definition event_one : Event := demo_event [patElectron 50 1 3] [].

(** Two photons, the second one on the electron's supercluster. *)
Definition event_second_photon : Event :=
  demo_event [patElectron 50 1 3]
             [ {| ph_superCluster := 7 |}; {| ph_superCluster := 3 |} ].

(** Two electrons on one supercluster. *)
Definition event_shared_cluster : Event :=
  demo_event [patElectron 50 1 3; patElectron 40 1 3] [].

(** One electron at pseudorapidity 11. *)
Definition event_forward : Event := demo_event [patElectron 50 11 3] [].

(** One plain reco::GsfElectron. *)
Definition event_reco : Event := demo_event [recoElectron 50 1 3] [].

(** Three electrons of transverse momenta 50, 80 and 50. *)
Definition event_three : Event :=
  demo_event [patElectron 50 1 3; patElectron 80 1 4; patElectron 50 (-1) 5] [].

(** Candidates A (pt 50), B (pt 80) and C (pt 30), the last one failing the
    veto identification. *)
Definition event_scenario : Event :=
  {| inElectrons := [patElectron 50 1 3; patElectron 80 1 4; patElectron 30 1 5];
     photons := [];
     vetoId := fun i => negb (Nat.eqb i 2);
     looseId := fun _ => false;
     mediumId := fun _ => false;
     tightId := fun _ => false;
     phCHIso := fun _ => 0%Q;
     phNHIso := fun _ => 0%Q;
     phPhIso := fun _ => 0%Q;
     ecalIsoProduct := fun _ => 0%Q;
     hcalIsoProduct := fun _ => 0%Q;
     rho := 2;
     rhoCentralCalo := 3;
     triggerObjects := [];
     isRealData := true;
     superClusterEta := fun _ => 1%Q |}.

(** [demo_filler] with both calorimeter side maps configured. *)
Definition demo_filler_maps : ElectronsFiller :=
  {| combIsoEA_ := flat_area 1;
     ecalIsoEA_ := flat_area 1;
     hcalIsoEA_ := flat_area 1;
     phCHIsoEA_ := flat_area 0;
     phNHIsoEA_ := flat_area 0;
     phPhIsoEA_ := flat_area 0;
     minPt_ := (-1)%Q;
     maxEta_ := 10%Q;
     ecalIsoToken_ := true;
     hcalIsoToken_ := true;
     useTrigger_ := false;
     hltFilters_ := [] |}.

(** Trigger matching switched on, with one filter label per category. *)
Definition demo_config_trigger : ParameterSet :=
  {| cfg_combIsoEA := flat_area 1;
     cfg_ecalIsoEA := flat_area 1;
     cfg_hcalIsoEA := flat_area 1;
     cfg_phCHIsoEA := flat_area 0;
     cfg_phNHIsoEA := flat_area 0;
     cfg_phPhIsoEA := flat_area 0;
     cfg_minPt := None;
     cfg_maxEta := None;
     cfg_ecalIso := false;
     cfg_hcalIso := false;
     cfg_useTrigger := true;
     cfg_hltFilters := ["hltEle27"%string; "hltEle23"%string] |}.

Definition demo_filler_trigger : ElectronsFiller :=
  {| combIsoEA_ := flat_area 1;
     ecalIsoEA_ := flat_area 1;
     hcalIsoEA_ := flat_area 1;
     phCHIsoEA_ := flat_area 0;
     phNHIsoEA_ := flat_area 0;
     phPhIsoEA_ := flat_area 0;
     minPt_ := (-1)%Q;
     maxEta_ := 10%Q;
     ecalIsoToken_ := false;
     hcalIsoToken_ := false;
     useTrigger_ := true;
     hltFilters_ := ["hltEle27"%string; "hltEle23"%string] |}.

(** One electron at (eta, phi) = (1, 0) and two trigger objects of the first
    category: one far away, one at separation 2/10. *)
Definition event_trigger : Event :=
  {| inElectrons := [patElectron 50 1 3];
     photons := [];
     vetoId := fun _ => true;
     looseId := fun _ => false;
     mediumId := fun _ => false;
     tightId := fun _ => false;
     phCHIso := fun _ => 0%Q;
     phNHIso := fun _ => 0%Q;
     phPhIso := fun _ => 0%Q;
     ecalIsoProduct := fun _ => 0%Q;
     hcalIsoProduct := fun _ => 0%Q;
     rho := 2;
     rhoCentralCalo := 3;
     triggerObjects :=
       [ {| to_eta := 2; to_phi := 1; to_filterLabels := ["hltEle27"%string] |};
         {| to_eta := 11 # 10; to_phi := 1 # 10; to_filterLabels := ["hltEle27"%string] |} ];
     isRealData := true;
     superClusterEta := fun _ => 1%Q |}.

(** The maps of a supercluster filler that has produced superclusters 3, 4
    and 5 at output positions 0, 1 and 2. *)
Definition demo_objectMaps : gmap string ObjectMap :=
  {[ "superClusters"%string :=
       add_links [(3, 0); (4, 1); (5, 2)] ObjectMap_empty ]}.

(** The output of a run that returns, and the record at a position of it. *)
Definition output_of (r : result FillOutput) : FillOutput :=
  match r with
  | Ok out => out
  | Throw _ =>
      {| outElectrons := []; eleEleMap := ObjectMap_empty; scEleMap := ObjectMap_empty |}
  end.

Definition record_at (out : FillOutput) (iP : nat) : PElectron :=
  default zero_PElectron (outElectrons out !! iP).

Definition output_of_refs (r : result (list PElectron)) : list PElectron :=
  match r with
  | Ok outs => outs
  | Throw _ => []
  end.

Definition out_one : FillOutput := output_of (@fill demo_externals demo_filler event_one).

Definition out_reco : FillOutput :=
  output_of (@fill demo_externals demo_filler_maps event_reco).

Definition out_second_photon : FillOutput :=
  output_of (@fill demo_externals demo_filler event_second_photon).

Definition out_trigger : FillOutput :=
  output_of (@fill demo_externals demo_filler_trigger event_trigger).

Definition out_shared : FillOutput :=
  output_of (@fill demo_externals demo_filler event_shared_cluster).

Definition out_scenario : FillOutput :=
  output_of (@fill demo_externals demo_filler event_scenario).

Definition out_three : FillOutput := output_of (@fill demo_externals demo_filler event_three).

(** ** The remaining members of the filler *)

(** ElectronsFiller::branchNames, lines 56-71.  [name] and [isRealData_] are
    the two members of the filler base the function reads besides
    [useTrigger_]; the branch list grows by [emplace_back].  The second list
    argument of the source is not touched. *)
Definition branchNames (name : string) (isRealData_ : bool) (f : ElectronsFiller)
    (eventBranches : list string) : list string :=
  let genBranches := [".tauDecay"; ".hadDecay"; ".matchedGen_"]%string in
  let eventBranches :=
    if isRealData_
    then fold_left (fun bs b => bs ++ [String.append (String.append "!" name) b])
           genBranches eventBranches
    else eventBranches in
  if negb (useTrigger_ f)
  then eventBranches ++ [String.append (String.append "!" name) ".matchHLT"]
  else eventBranches.

(** The event with another trigger-object collection. *)
Definition with_triggerObjects (objs : list TriggerObject) (ev : Event) : Event :=
  {| inElectrons := inElectrons ev;
     photons := photons ev;
     vetoId := vetoId ev;
     looseId := looseId ev;
     mediumId := mediumId ev;
     tightId := tightId ev;
     phCHIso := phCHIso ev;
     phNHIso := phNHIso ev;
     phPhIso := phPhIso ev;
     ecalIsoProduct := ecalIsoProduct ev;
     hcalIsoProduct := hcalIsoProduct ev;
     rho := rho ev;
     rhoCentralCalo := rhoCentralCalo ev;
     triggerObjects := objs;
     isRealData := isRealData ev;
     superClusterEta := superClusterEta ev |}.

(** Two records that agree on every member but the supercluster reference. *)
Definition same_except_superCluster (r r' : PElectron) : Prop :=
  pt r' = pt r ∧ eta r' = eta r ∧ phi r' = phi r ∧ mass r' = mass r ∧
  veto r' = veto r ∧ loose r' = loose r ∧ medium r' = medium r ∧ tight r' = tight r ∧
  q r' = q r ∧ sieie r' = sieie r ∧ sipip r' = sipip r ∧ hOverE r' = hOverE r ∧
  chiso r' = chiso r ∧ nhiso r' = nhiso r ∧ phoiso r' = phoiso r ∧ puiso r' = puiso r ∧
  isoPUOffset r' = isoPUOffset r ∧ ecaliso r' = ecaliso r ∧ hcaliso r' = hcaliso r ∧
  chisoPh r' = chisoPh r ∧ nhisoPh r' = nhisoPh r ∧ phisoPh r' = phisoPh r ∧
  matchHLT r' = matchHLT r ∧ tauDecay r' = tauDecay r ∧ hadDecay r' = hadDecay r.

(** The output with its collection as [setRefs] left it. *)
Definition with_outElectrons (outs : list PElectron) (out : FillOutput) : FillOutput :=
  {| outElectrons := outs; eleEleMap := eleEleMap out; scEleMap := scEleMap out |}.

(** Some photon of the event sits on the given supercluster. *)
Definition photon_on (ev : Event) (scRef : nat) : bool :=
  existsb (fun photon => Nat.eqb (ph_superCluster photon) scRef) (photons ev).

(** * Properties *)

(** ** Comparisons *)

Lemma Qltb_true (x y : Q) : Qltb x y = true ↔ (x < y)%Q.
Proof.
  unfold Qltb. rewrite negb_true_iff, <- not_true_iff_false, Qle_bool_iff.
  split; [apply Qnot_le_lt | apply Qlt_not_le].
Qed.

Lemma Qltb_false (x y : Q) : Qltb x y = false ↔ (y <= x)%Q.
Proof.
  unfold Qltb. rewrite negb_false_iff. apply Qle_bool_iff.
Qed.

Lemma selectedb_spec (f : ElectronsFiller) (ev : Event) (iEl : nat) (e : GsfElectron) :
  selectedb f ev iEl e = true ↔ selected f ev iEl e.
Proof.
  unfold selectedb, selected.
  rewrite !andb_true_iff, !Qle_bool_iff. tauto.
Qed.

(** The three tests of the loop, taken together, are the selection. *)
Lemma cuts_selectedb (f : ElectronsFiller) (ev : Event) (iEl : nat) (e : GsfElectron) :
  selectedb f ev iEl e =
  negb (Qltb (gsf_pt e) (minPt_ f)) && negb (Qltb (maxEta_ f) (Qabs (gsf_eta e)))
    && vetoId ev iEl.
Proof.
  unfold selectedb, Qltb. by rewrite !negb_involutive.
Qed.

(** ** The result monad *)

Lemma bind_Ok {A B : Type} (r : result A) (k : A → result B) (b : B) :
  r ≫= k = Ok b ↔ ∃ a, r = Ok a ∧ k a = Ok b.
Proof.
  destruct r as [a|e]; simpl; split.
  - intros Hk. by exists a.
  - by intros (a' & [= <-] & Hk).
  - discriminate.
  - by intros (a' & [=] & _).
Qed.

Lemma bind_Throw {A B : Type} (r : result A) (k : A → result B) (ex : Exception) :
  r ≫= k = Throw ex ↔ r = Throw ex ∨ ∃ a, r = Ok a ∧ k a = Throw ex.
Proof.
  destruct r as [a|e]; simpl; split.
  - intros Hk. right. by exists a.
  - intros [[=] | (a' & [= <-] & Hk)]. done.
  - intros [= <-]. by left.
  - intros [[= <-] | (a' & [=] & _)]. done.
Qed.

Lemma vec_at_Ok {A : Type} (v : list A) (i : nat) (a : A) :
  vec_at v i = Ok a ↔ v !! i = Some a.
Proof.
  unfold vec_at. destruct (v !! i); split; intros; simplify_eq; done.
Qed.

(** ** The selection loop *)

Section FillLoop.
Context `{Externals}.
Variable f : ElectronsFiller.
Variable ev : Event.
Variable hlt : nat → list TriggerObject.

Lemma fillLoop_cons (iEl : nat) (e : GsfElectron) (rest : list GsfElectron)
    (outs : list PElectron) (ptrs : list nat) :
  fillLoop f ev hlt iEl (e :: rest) outs ptrs =
  if selectedb f ev iEl e
  then outElectron ← fillElectron f ev hlt iEl e true;
       fillLoop f ev hlt (S iEl) rest (outs ++ [outElectron]) (ptrs ++ [iEl])
  else fillLoop f ev hlt (S iEl) rest outs ptrs.
Proof.
  rewrite cuts_selectedb. simpl.
  destruct (Qltb (gsf_pt e) (minPt_ f)); [done|].
  destruct (Qltb (maxEta_ f) (Qabs (gsf_eta e))); [done|].
  destruct (vetoId ev iEl); done.
Qed.

Lemma selection_lookup (els pre : list GsfElectron) (i : nat) :
  i ∈ selection f ev (length pre) els ↔
  ∃ e, (pre ++ els) !! i = Some e ∧ length pre ≤ i ∧ selected f ev i e.
Proof.
  revert pre i. induction els as [|e rest IH]; intros pre i; simpl.
  - split; [by intros ?%elem_of_nil|].
    intros (e & He & Hle & _). rewrite app_nil_r in He.
    apply lookup_lt_Some in He. lia.
  - assert (Hstep : ∀ j, j ∈ selection f ev (S (length pre)) rest ↔
              ∃ e', (pre ++ e :: rest) !! j = Some e' ∧ S (length pre) ≤ j
                    ∧ selected f ev j e').
    { intros j. specialize (IH (pre ++ [e]) j).
      rewrite length_app, Nat.add_1_r, <- app_assoc in IH. apply IH. }
    assert (Hhead : (pre ++ e :: rest) !! length pre = Some e).
    { by rewrite lookup_app_r, Nat.sub_diag by lia. }
    destruct (selectedb f ev (length pre) e) eqn:Hsel.
    + apply selectedb_spec in Hsel.
      rewrite elem_of_cons, Hstep. split.
      * intros [-> | (e' & He' & Hle & Hs)]; [by exists e|].
        exists e'. split_and!; [done | lia | done].
      * intros (e' & He' & Hle & Hs).
        destruct (decide (i = length pre)) as [->|Hne]; [by left|].
        right. exists e'. split_and!; [done | lia | done].
    + rewrite Hstep. split.
      * intros (e' & He' & Hle & Hs). exists e'. split_and!; [done | lia | done].
      * intros (e' & He' & Hle & Hs).
        destruct (decide (i = length pre)) as [->|Hne].
        -- rewrite Hhead in He'. simplify_eq.
           apply selectedb_spec in Hs. congruence.
        -- exists e'. split_and!; [done | lia | done].
Qed.

Lemma selection_lower (els : list GsfElectron) (iEl : nat) :
  Forall (λ i, iEl ≤ i) (selection f ev iEl els).
Proof.
  revert iEl. induction els as [|e rest IH]; intros iEl; simpl; [constructor|].
  assert (Forall (λ i, iEl ≤ i) (selection f ev (S iEl) rest)).
  { eapply Forall_impl; [apply IH|]. simpl. lia. }
  destruct (selectedb f ev iEl e); [constructor; [lia|done] | done].
Qed.

Lemma selection_sorted (els : list GsfElectron) (iEl : nat) :
  StronglySorted lt (selection f ev iEl els).
Proof.
  revert iEl. induction els as [|e rest IH]; intros iEl; simpl; [constructor|].
  destruct (selectedb f ev iEl e); [|done].
  constructor; [done|].
  eapply Forall_impl; [apply (selection_lower rest (S iEl))|]. simpl. lia.
Qed.

Lemma fillLoop_Ok (els pre : list GsfElectron) (outs outs' : list PElectron)
    (ptrs ptrs' : list nat) :
  inElectrons ev = pre ++ els →
  fillLoop f ev hlt (length pre) els outs ptrs = Ok (outs', ptrs') →
  ∃ news, outs' = outs ++ news ∧
          ptrs' = ptrs ++ selection f ev (length pre) els ∧
          Forall2 (filled_from f ev hlt) (selection f ev (length pre) els) news.
Proof.
  revert pre outs ptrs. induction els as [|e rest IH]; intros pre outs ptrs Hin.
  - simpl. intros [= <- <-]. exists []. by rewrite !app_nil_r.
  - rewrite fillLoop_cons. simpl selection.
    assert (Hin' : inElectrons ev = (pre ++ [e]) ++ rest) by by rewrite <- app_assoc.
    assert (Hlen : length (pre ++ [e]) = S (length pre))
      by (rewrite length_app; simpl; lia).
    specialize (IH (pre ++ [e])). rewrite Hlen in IH.
    destruct (selectedb f ev (length pre) e) eqn:Hsel.
    + intros (r & Hr & Hloop)%bind_Ok.
      destruct (IH _ _ Hin' Hloop) as (news & -> & -> & Hall).
      exists (r :: news). rewrite <- !app_assoc. split_and!; [done..|].
      constructor; [|done].
      exists e. split_and!; [|by apply selectedb_spec|done].
      by rewrite Hin, lookup_app_r, Nat.sub_diag by lia.
    + intros Hloop. by apply IH.
Qed.

Lemma fillLoop_Throw (els pre : list GsfElectron) (outs : list PElectron)
    (ptrs : list nat) (ex : Exception) :
  inElectrons ev = pre ++ els →
  fillLoop f ev hlt (length pre) els outs ptrs = Throw ex →
  ∃ iEl e, inElectrons ev !! iEl = Some e ∧ selected f ev iEl e ∧
           fillElectron f ev hlt iEl e true = Throw ex.
Proof.
  revert pre outs ptrs. induction els as [|e rest IH]; intros pre outs ptrs Hin.
  - simpl. discriminate.
  - rewrite fillLoop_cons.
    assert (Hin' : inElectrons ev = (pre ++ [e]) ++ rest) by by rewrite <- app_assoc.
    assert (Hlen : length (pre ++ [e]) = S (length pre))
      by (rewrite length_app; simpl; lia).
    specialize (IH (pre ++ [e])). rewrite Hlen in IH.
    destruct (selectedb f ev (length pre) e) eqn:Hsel.
    + intros [Hthrow | (r & Hr & Hloop)]%bind_Throw.
      * exists (length pre), e. split_and!; [|by apply selectedb_spec|done].
        by rewrite Hin, lookup_app_r, Nat.sub_diag by lia.
      * by eapply IH.
    + intros Hloop. by eapply IH.
Qed.

End FillLoop.

(** ** The ranking *)

Lemma ptGreater_true (a b : PElectron) : ptGreater a b = true ↔ (pt b < pt a)%Q.
Proof. apply Qltb_true. Qed.

Lemma ptGreater_false (a b : PElectron) : ptGreater a b = false ↔ (pt a <= pt b)%Q.
Proof. apply Qltb_false. Qed.

Lemma ranked_before_trans (x y z : nat * PElectron) :
  ranked_before x y → ranked_before y z → ranked_before x z.
Proof.
  unfold ranked_before. intros [Hxy | [Hxy Hi]] [Hyz | [Hyz Hj]].
  - left. by eapply Qlt_trans.
  - left. by rewrite <- Hyz.
  - left. by rewrite Hxy.
  - right. split; [by rewrite Hxy | lia].
Qed.

Lemma ranked_before_le (x y : nat * PElectron) :
  ranked_before x y → (pt (snd y) <= pt (snd x))%Q.
Proof.
  intros [Hlt | [Heq _]]; [by apply Qlt_le_weak | rewrite Heq; apply Qle_refl].
Qed.

Lemma ranked_before_tie (x y : nat * PElectron) :
  ranked_before x y → (pt (snd x) == pt (snd y))%Q → fst x < fst y.
Proof.
  intros [Hlt | [_ Hi]] Heq; [|done].
  rewrite Heq in Hlt. by apply Qlt_irrefl in Hlt.
Qed.

Lemma sort_insert_perm (cmp : PElectron → PElectron → bool)
    (x : nat * PElectron) (l : list (nat * PElectron)) :
  sort_insert cmp x l ≡ₚ x :: l.
Proof.
  induction l as [|y l IH]; simpl; [done|].
  destruct (cmp (snd y) (snd x)); [|done].
  rewrite IH. apply Permutation_swap.
Qed.

Lemma sort_indexed_perm (cmp : PElectron → PElectron → bool)
    (l : list (nat * PElectron)) :
  sort_indexed cmp l ≡ₚ l.
Proof.
  induction l as [|x l IH]; simpl; [done|].
  by rewrite sort_insert_perm, IH.
Qed.

Lemma sort_insert_sorted (x : nat * PElectron) (l : list (nat * PElectron)) :
  Forall (λ y, fst x < fst y) l →
  StronglySorted ranked_before l →
  StronglySorted ranked_before (sort_insert ptGreater x l).
Proof.
  intros Hidx Hsorted. induction Hsorted as [|y l Hl IH Hy]; simpl.
  - repeat constructor.
  - apply Forall_cons in Hidx as [Hxy Hidx].
    destruct (ptGreater (snd y) (snd x)) eqn:Hcmp.
    + apply ptGreater_true in Hcmp.
      constructor; [by apply IH|].
      rewrite sort_insert_perm. constructor; [by left | done].
    + apply ptGreater_false in Hcmp.
      assert (Hx : ranked_before x y).
      { destruct (Qle_lt_or_eq _ _ Hcmp) as [Hlt | Heq]; [by left|].
        right. split; [by symmetry | done]. }
      constructor; [by constructor|].
      constructor; [done|].
      eapply Forall_impl; [exact Hy|].
      intros z Hz. by eapply ranked_before_trans.
Qed.

Lemma sort_indexed_sorted (l : list (nat * PElectron)) :
  StronglySorted (λ x y, fst x < fst y) l →
  StronglySorted ranked_before (sort_indexed ptGreater l).
Proof.
  induction 1 as [|x l Hl IH Hx]; simpl; [constructor|].
  apply sort_insert_sorted; [|done].
  by rewrite sort_indexed_perm.
Qed.

Lemma zip_seq_sorted (c : list PElectron) (a : nat) :
  StronglySorted (λ x y : nat * PElectron, fst x < fst y) (zip (seq a (length c)) c).
Proof.
  revert a. induction c as [|r c IH]; intros a; simpl; [constructor|].
  constructor; [apply IH|].
  apply Forall_forall. intros [i r'] Hin. simpl.
  apply elem_of_zip_l, elem_of_seq in Hin. lia.
Qed.

Lemma zip_seq_lookup (c : list PElectron) (i : nat) (r : PElectron) :
  (i, r) ∈ zip (seq 0 (length c)) c ↔ c !! i = Some r.
Proof.
  rewrite list_elem_of_lookup. split.
  - intros (k & Hk). apply lookup_zip_with_Some in Hk as (i' & r' & [= <- <-] & Hi & Hr).
    apply lookup_seq in Hi as [-> _]. done.
  - intros Hr. exists i. apply lookup_zip_with_Some. exists i, r.
    split_and!; [done | | done].
    apply lookup_seq. split; [done|]. by apply lookup_lt_Some in Hr.
Qed.

Lemma StronglySorted_lookup_lt {A : Type} (R : A → A → Prop) (l : list A)
    (i j : nat) (x y : A) :
  StronglySorted R l → i < j → l !! i = Some x → l !! j = Some y → R x y.
Proof.
  intros Hsorted. revert i j. induction Hsorted as [|z l Hl IH Hz]; intros i j Hij Hi Hj.
  - by rewrite lookup_nil in Hi.
  - destruct j as [|j]; [lia|]. simpl in Hj.
    destruct i as [|i]; simpl in Hi.
    + simplify_eq. rewrite Forall_forall in Hz. apply Hz.
      apply list_elem_of_lookup. by exists j.
    + apply (IH i j); [lia | done..].
Qed.

Lemma StronglySorted_lt_NoDup (l : list nat) : StronglySorted lt l → NoDup l.
Proof.
  induction 1 as [|x l Hl IH Hx]; constructor; [|done].
  intros Hin. rewrite Forall_forall in Hx. specialize (Hx _ Hin). lia.
Qed.

(** What the sort returns, for any collection. *)
Lemma sort_spec (c sorted : list PElectron) (idx : list nat) :
  sort ptGreater c = (sorted, idx) →
  idx ≡ₚ seq 0 (length c) ∧
  sorted ≡ₚ c ∧
  length sorted = length c ∧
  length idx = length c ∧
  (∀ iP r, sorted !! iP = Some r → ∃ i, idx !! iP = Some i ∧ c !! i = Some r) ∧
  (∀ i j a b, i < j → sorted !! i = Some a → sorted !! j = Some b →
     (pt b <= pt a)%Q) ∧
  (∀ i j a b oi oj, i < j → sorted !! i = Some a → sorted !! j = Some b →
     (pt a == pt b)%Q → idx !! i = Some oi → idx !! j = Some oj → oi < oj).
Proof.
  unfold sort. intros [= <- <-].
  set (s := sort_indexed ptGreater (zip (seq 0 (length c)) c)).
  assert (Hperm : s ≡ₚ zip (seq 0 (length c)) c) by apply sort_indexed_perm.
  assert (Hsorted : StronglySorted ranked_before s)
    by apply sort_indexed_sorted, zip_seq_sorted.
  assert (Hidx : s.*1 ≡ₚ seq 0 (length c)).
  { rewrite Hperm. rewrite fst_zip; [done|]. by rewrite length_seq. }
  assert (Hrec : s.*2 ≡ₚ c).
  { rewrite Hperm. rewrite snd_zip; [done|]. by rewrite length_seq. }
  assert (Hpair : ∀ k x, s !! k = Some x → s.*2 !! k = Some (snd x) ∧ s.*1 !! k = Some (fst x)).
  { intros k x Hk. by rewrite !list_lookup_fmap, Hk. }
  assert (Hunpair : ∀ k r, s.*2 !! k = Some r → ∃ i, s !! k = Some (i, r)).
  { intros k r Hk. rewrite list_lookup_fmap in Hk.
    destruct (s !! k) as [[i r']|] eqn:Hs; simplify_eq/=. by exists i. }
  split_and!.
  - done.
  - done.
  - by rewrite Hrec.
  - by rewrite Hidx, length_seq.
  - intros iP r (i & Hs)%Hunpair. exists i. split.
    + by rewrite list_lookup_fmap, Hs.
    + apply zip_seq_lookup. rewrite <- Hperm. apply list_elem_of_lookup. by exists iP.
  - intros i j a b Hij (oi & Hi)%Hunpair (oj & Hj)%Hunpair.
    apply (ranked_before_le (oi, a) (oj, b)).
    by eapply (StronglySorted_lookup_lt _ s i j).
  - intros i j a b oi oj Hij (oi' & Hi)%Hunpair (oj' & Hj)%Hunpair Heq Hoi Hoj.
    rewrite list_lookup_fmap, Hi in Hoi. rewrite list_lookup_fmap, Hj in Hoj.
    simplify_eq/=.
    apply (ranked_before_tie (oi, a) (oj, b)); [|done].
    by eapply (StronglySorted_lookup_lt _ s i j).
Qed.

(** ** The identity maps *)

Lemma fwdMap_add_links (kvs : list (nat * nat)) (m : ObjectMap) :
  fwdMap (add_links kvs m) = insert_all kvs (fwdMap m).
Proof.
  revert m. induction kvs as [|kv kvs IH]; intros m; simpl; [done|].
  by rewrite IH.
Qed.

Lemma bwdMap_add_links (kvs : list (nat * nat)) (m : ObjectMap) :
  bwdMap (add_links kvs m) = insert_all (prod_swap <$> kvs) (bwdMap m).
Proof.
  revert m. induction kvs as [|kv kvs IH]; intros m; simpl; [done|].
  by rewrite IH.
Qed.

Lemma insert_all_lookup_inv (kvs : list (nat * nat)) (g : gmap nat nat) (k v : nat) :
  insert_all kvs g !! k = Some v → (k, v) ∈ kvs ∨ g !! k = Some v.
Proof.
  revert g. induction kvs as [|[k0 v0] kvs IH]; intros g; simpl; [by right|].
  intros [Hin | Hg]%IH; [left; by right|].
  apply lookup_insert_Some in Hg as [[<- <-] | [_ Hg]]; [left; by left | by right].
Qed.

Lemma insert_all_lookup_notin (kvs : list (nat * nat)) (g : gmap nat nat) (k : nat) :
  k ∉ kvs.*1 → insert_all kvs g !! k = g !! k.
Proof.
  revert g. induction kvs as [|[k0 v0] kvs IH]; intros g; simpl; [done|].
  intros [Hne Hnotin]%not_elem_of_cons.
  rewrite IH by done. by rewrite lookup_insert_ne.
Qed.

Lemma insert_all_lookup (kvs : list (nat * nat)) (g : gmap nat nat) (k v : nat) :
  NoDup kvs.*1 → (k, v) ∈ kvs → insert_all kvs g !! k = Some v.
Proof.
  revert g. induction kvs as [|[k0 v0] kvs IH]; intros g; simpl.
  - by intros _ ?%elem_of_nil.
  - intros [Hnotin Hnodup]%NoDup_cons [[= -> ->] | Hin]%elem_of_cons.
    + rewrite insert_all_lookup_notin by done. by rewrite lookup_insert_eq.
    + by apply IH.
Qed.

Lemma mapLoop_Ok (ev : Event) (ptrList idxs iPs : list nat) (m1 m2 m1' m2' : ObjectMap) :
  mapLoop ev ptrList idxs iPs m1 m2 = Ok (m1', m2') →
  ∃ links : list (nat * (nat * nat)),
    links.*1 = iPs ∧
    Forall (λ l, linked ev ptrList idxs (fst l) (fst (snd l)) (snd (snd l))) links ∧
    m1' = add_links ((λ l, (fst (snd l), fst l)) <$> links) m1 ∧
    m2' = add_links ((λ l, (snd (snd l), fst l)) <$> links) m2.
Proof.
  revert m1 m2. induction iPs as [|iP iPs IH]; intros m1 m2; simpl.
  - intros [= <- <-]. by exists [].
  - intros (idx & Hidx%vec_at_Ok & (ptr & Hptr%vec_at_Ok
      & (e & He%vec_at_Ok & Hloop)%bind_Ok)%bind_Ok)%bind_Ok.
    destruct (IH _ _ Hloop) as (links & <- & Hall & -> & ->).
    exists ((iP, (ptr, gsf_superCluster e)) :: links). split_and!; [done | | done..].
    constructor; [|done]. by exists idx, e.
Qed.

Lemma mapLoop_total (ev : Event) (ptrList idxs iPs : list nat) (m1 m2 : ObjectMap) :
  Forall (λ iP, ∃ ptr sc, linked ev ptrList idxs iP ptr sc) iPs →
  ∃ m1' m2', mapLoop ev ptrList idxs iPs m1 m2 = Ok (m1', m2').
Proof.
  intros Hall. revert m1 m2.
  induction Hall as [|iP iPs (ptr & sc & idx & e & Hidx & Hptr & He & _) _ IH];
    intros m1 m2; simpl.
  - by exists m1, m2.
  - unfold vec_at. rewrite Hidx. simpl. rewrite Hptr. simpl. rewrite He. simpl.
    apply IH.
Qed.

Lemma linked_functional (ev : Event) (ptrList idxs : list nat) (iP ptr ptr' sc sc' : nat) :
  linked ev ptrList idxs iP ptr sc → linked ev ptrList idxs iP ptr' sc' →
  ptr = ptr' ∧ sc = sc'.
Proof.
  intros (idx & e & ? & ? & ? & ->) (idx' & e' & ? & ? & ? & ->). by simplify_eq.
Qed.

(** ** The structure of a successful fill *)

Section FillStructure.
Context `{Externals}.
Variable f : ElectronsFiller.
Variable ev : Event.

Lemma fill_Ok_inv (out : FillOutput) :
  fill f ev = Ok out → ∃ created ptrList idx, fill_stages f ev out created ptrList idx.
Proof.
  unfold fill. intros ([created ptrList] & Hloop & Hrest)%bind_Ok.
  destruct (sort ptGreater created) as [sorted idx] eqn:Hsort.
  apply bind_Ok in Hrest as ([eleEle scEle] & Hmap & [= <-]).
  by exists created, ptrList, idx.
Qed.

Lemma fillLoop_structure (created : list PElectron) (ptrList : list nat) :
  fillLoop f ev (hltObjects f ev) 0 (inElectrons ev) [] [] = Ok (created, ptrList) →
  ptrList = selection f ev 0 (inElectrons ev) ∧
  Forall2 (filled_from f ev (hltObjects f ev)) ptrList created.
Proof.
  intros Hloop.
  destruct (fillLoop_Ok f ev _ (inElectrons ev) [] [] created [] ptrList eq_refl Hloop)
    as (news & -> & -> & Hall).
  done.
Qed.

(** Every final position is linked to a selected candidate, and holds the
    record made from it. *)
Lemma sorted_linked (created sorted : list PElectron) (ptrList idx : list nat)
    (iP : nat) (r : PElectron) :
  fillLoop f ev (hltObjects f ev) 0 (inElectrons ev) [] [] = Ok (created, ptrList) →
  sort ptGreater created = (sorted, idx) →
  sorted !! iP = Some r →
  ∃ ptr e, linked ev ptrList idx iP ptr (gsf_superCluster e) ∧
           inElectrons ev !! ptr = Some e ∧ selected f ev ptr e ∧
           fillElectron f ev (hltObjects f ev) ptr e true = Ok r.
Proof.
  intros [-> Hall]%fillLoop_structure Hsort Hr.
  destruct (sort_spec _ _ _ Hsort) as (_ & _ & _ & _ & Hpos & _).
  destruct (Hpos _ _ Hr) as (i & Hi & Hc).
  destruct (Forall2_lookup_r _ _ _ _ _ Hall Hc) as (ptr & Hptr & e & He & Hsel & Hfill).
  exists ptr, e. split_and!; [|done..]. by exists i, e.
Qed.

Lemma linked_injective (created sorted : list PElectron) (ptrList idx : list nat)
    (iP iP' ptr sc sc' : nat) :
  fillLoop f ev (hltObjects f ev) 0 (inElectrons ev) [] [] = Ok (created, ptrList) →
  sort ptGreater created = (sorted, idx) →
  linked ev ptrList idx iP ptr sc → linked ev ptrList idx iP' ptr sc' → iP = iP'.
Proof.
  intros [-> _]%fillLoop_structure Hsort
    (i & e & Hi & Hptr & _) (i' & e' & Hi' & Hptr' & _).
  destruct (sort_spec _ _ _ Hsort) as (Hperm & _).
  assert (Hnodup : NoDup (selection f ev 0 (inElectrons ev))).
  { apply StronglySorted_lt_NoDup, selection_sorted. }
  assert (i = i') as <- by by eapply NoDup_lookup.
  eapply NoDup_lookup; [|done..]. rewrite Hperm. apply NoDup_seq.
Qed.

Lemma linked_selected (ptrList idx : list nat) (iP ptr sc : nat) :
  ptrList = selection f ev 0 (inElectrons ev) →
  linked ev ptrList idx iP ptr sc →
  ∃ e, inElectrons ev !! ptr = Some e ∧ selected f ev ptr e ∧ sc = gsf_superCluster e.
Proof.
  intros -> (i & e & _ & Hptr & He & ->). exists e. split_and!; [done| |done].
  assert (Hin : ptr ∈ selection f ev (length (@nil GsfElectron)) (inElectrons ev)).
  { apply list_elem_of_lookup. by exists i. }
  apply selection_lookup in Hin as (e' & He' & _ & Hsel). simpl in He'. by simplify_eq.
Qed.

End FillStructure.

(** ** Lookups in the maps built by a sequence of additions *)

Section Links.
Variable key : nat * (nat * nat) → nat.
Variable links : list (nat * (nat * nat)).

Lemma insert_all_by_position (iP k : nat) :
  NoDup links.*1 →
  insert_all ((λ l, (fst l, key l)) <$> links) ∅ !! iP = Some k ↔
  ∃ l, l ∈ links ∧ fst l = iP ∧ key l = k.
Proof.
  intros Hnodup. split.
  - intros [Hin | Hempty]%insert_all_lookup_inv; [|by rewrite lookup_empty in Hempty].
    apply list_elem_of_fmap in Hin as (l & [= -> ->] & Hl). by exists l.
  - intros (l & Hl & <- & <-). apply insert_all_lookup.
    + by rewrite <- list_fmap_compose.
    + apply list_elem_of_fmap. by exists l.
Qed.

Lemma insert_all_by_key_inv (k iP : nat) :
  insert_all ((λ l, (key l, fst l)) <$> links) ∅ !! k = Some iP →
  ∃ l, l ∈ links ∧ fst l = iP ∧ key l = k.
Proof.
  intros [Hin | Hempty]%insert_all_lookup_inv; [|by rewrite lookup_empty in Hempty].
  apply list_elem_of_fmap in Hin as (l & [= -> ->] & Hl). by exists l.
Qed.

Lemma insert_all_by_key (k iP : nat) :
  NoDup (key <$> links) →
  (∃ l, l ∈ links ∧ fst l = iP ∧ key l = k) →
  insert_all ((λ l, (key l, fst l)) <$> links) ∅ !! k = Some iP.
Proof.
  intros Hnodup (l & Hl & <- & <-). apply insert_all_lookup.
  - by rewrite <- list_fmap_compose.
  - apply list_elem_of_fmap. by exists l.
Qed.

End Links.

Lemma links_linked (ev : Event) (ptrList idx : list nat) (n : nat)
    (links : list (nat * (nat * nat))) (iP ptr sc : nat) :
  links.*1 = seq 0 n →
  Forall (λ l, linked ev ptrList idx (fst l) (fst (snd l)) (snd (snd l))) links →
  (iP, (ptr, sc)) ∈ links ↔ iP < n ∧ linked ev ptrList idx iP ptr sc.
Proof.
  intros Hfst Hall. rewrite Forall_forall in Hall. split.
  - intros Hin. split; [|by apply (Hall _ Hin)].
    assert (iP ∈ links.*1) as Hpos.
    { apply list_elem_of_fmap. by exists (iP, (ptr, sc)). }
    rewrite Hfst in Hpos. apply elem_of_seq in Hpos. lia.
  - intros [Hlt Hlink].
    assert (iP ∈ links.*1) as Hpos by (rewrite Hfst; apply elem_of_seq; lia).
    apply list_elem_of_fmap in Hpos as ([iP' [ptr' sc']] & -> & Hin).
    destruct (linked_functional _ _ _ _ _ _ _ _ Hlink (Hall _ Hin)) as [-> ->].
    done.
Qed.

(** ** The maps after a successful fill *)

Section FillMaps.
Context `{Externals}.
Variable f : ElectronsFiller.
Variable ev : Event.
Variable out : FillOutput.
Variables (created : list PElectron) (ptrList idx : list nat).
Hypothesis Hstages : fill_stages f ev out created ptrList idx.

Lemma eleEleMap_bwd (iP k : nat) :
  bwdMap (eleEleMap out) !! iP = Some k ↔
  iP < length (outElectrons out) ∧ ∃ sc, linked ev ptrList idx iP k sc.
Proof.
  destruct Hstages as (Hloop & Hsort & Hmap).
  apply mapLoop_Ok in Hmap as (links & Hfst & Hall & Hele & Hsc).
  rewrite Hele, bwdMap_add_links, <- list_fmap_compose.
  change (insert_all ((λ l, (fst l, fst (snd l))) <$> links) ∅ !! iP = Some k ↔
          iP < length (outElectrons out) ∧ ∃ sc, linked ev ptrList idx iP k sc).
  rewrite insert_all_by_position by (rewrite Hfst; apply NoDup_seq).
  split.
  - intros ([iP' [ptr sc]] & Hl & <- & <-). simpl.
    apply (links_linked ev ptrList idx (length (outElectrons out)) links) in Hl as [? ?]; eauto.
  - intros (Hlt & sc & Hlink). exists (iP, (k, sc)). split; [|done].
    by eapply links_linked.
Qed.

Lemma scEleMap_bwd (iP c : nat) :
  bwdMap (scEleMap out) !! iP = Some c ↔
  iP < length (outElectrons out) ∧ ∃ ptr, linked ev ptrList idx iP ptr c.
Proof.
  destruct Hstages as (Hloop & Hsort & Hmap).
  apply mapLoop_Ok in Hmap as (links & Hfst & Hall & Hele & Hsc).
  rewrite Hsc, bwdMap_add_links, <- list_fmap_compose.
  change (insert_all ((λ l, (fst l, snd (snd l))) <$> links) ∅ !! iP = Some c ↔
          iP < length (outElectrons out) ∧ ∃ ptr, linked ev ptrList idx iP ptr c).
  rewrite insert_all_by_position by (rewrite Hfst; apply NoDup_seq).
  split.
  - intros ([iP' [ptr sc]] & Hl & <- & <-). simpl.
    apply (links_linked ev ptrList idx (length (outElectrons out)) links) in Hl as [? ?]; eauto.
  - intros (Hlt & ptr & Hlink). exists (iP, (ptr, c)). split; [|done].
    by eapply links_linked.
Qed.

Lemma scEleMap_fwd_inv (c iP : nat) :
  fwdMap (scEleMap out) !! c = Some iP →
  iP < length (outElectrons out) ∧ ∃ ptr, linked ev ptrList idx iP ptr c.
Proof.
  destruct Hstages as (Hloop & Hsort & Hmap).
  apply mapLoop_Ok in Hmap as (links & Hfst & Hall & Hele & Hsc).
  rewrite Hsc, fwdMap_add_links.
  intros ([iP' [ptr sc]] & Hl & <- & <-)%insert_all_by_key_inv. simpl.
  apply (links_linked ev ptrList idx (length (outElectrons out)) links) in Hl as [? ?]; eauto.
Qed.

Lemma eleEleMap_fwd (k iP : nat) :
  fwdMap (eleEleMap out) !! k = Some iP ↔
  iP < length (outElectrons out) ∧ ∃ sc, linked ev ptrList idx iP k sc.
Proof.
  destruct Hstages as (Hloop & Hsort & Hmap).
  apply mapLoop_Ok in Hmap as (links & Hfst & Hall & Hele & Hsc).
  rewrite Hele, fwdMap_add_links. split.
  - intros ([iP' [ptr sc]] & Hl & <- & <-)%insert_all_by_key_inv. simpl.
    apply (links_linked ev ptrList idx (length (outElectrons out)) links) in Hl as [? ?]; eauto.
  - intros (Hlt & sc & Hlink).
    apply (insert_all_by_key (λ l, fst (snd l))).
    + apply NoDup_fmap_2_strong.
      * intros [i1 [p1 s1]] [i2 [p2 s2]] H1 H2. simpl. intros ->.
        apply (links_linked ev ptrList idx (length (outElectrons out)) links) in H1 as [_ H1]; [|done..].
        apply (links_linked ev ptrList idx (length (outElectrons out)) links) in H2 as [_ H2]; [|done..].
        assert (i1 = i2) as -> by by eapply linked_injective.
        by destruct (linked_functional _ _ _ _ _ _ _ _ H1 H2) as [_ ->].
      * apply (NoDup_fmap_1 fst). rewrite Hfst. apply NoDup_seq.
    + exists (iP, (k, sc)). split; [|done]. by eapply links_linked.
Qed.

(** The cluster map reads forward as well when no two selected candidates
    share a supercluster. *)
Lemma scEleMap_fwd (c iP : nat) :
  (∀ i j ei ej, inElectrons ev !! i = Some ei → inElectrons ev !! j = Some ej →
     selected f ev i ei → selected f ev j ej →
     gsf_superCluster ei = gsf_superCluster ej → i = j) →
  iP < length (outElectrons out) → (∃ ptr, linked ev ptrList idx iP ptr c) →
  fwdMap (scEleMap out) !! c = Some iP.
Proof.
  intros Hdistinct Hlt (ptr & Hlink).
  destruct Hstages as (Hloop & Hsort & Hmap).
  destruct (fillLoop_structure _ _ _ _ Hloop) as [Hptrs _].
  apply mapLoop_Ok in Hmap as (links & Hfst & Hall & Hele & Hsc).
  rewrite Hsc, fwdMap_add_links.
  apply (insert_all_by_key (λ l, snd (snd l))).
  - apply NoDup_fmap_2_strong.
    + intros [i1 [p1 s1]] [i2 [p2 s2]] H1 H2. simpl. intros ->.
      apply (links_linked ev ptrList idx (length (outElectrons out)) links) in H1 as [_ H1]; [|done..].
      apply (links_linked ev ptrList idx (length (outElectrons out)) links) in H2 as [_ H2]; [|done..].
      destruct (linked_selected f ev _ _ _ _ _ Hptrs H1) as (e1 & He1 & Hs1 & Hc1).
      destruct (linked_selected f ev _ _ _ _ _ Hptrs H2) as (e2 & He2 & Hs2 & Hc2).
      assert (p1 = p2) as -> by (eapply Hdistinct; [done..|congruence]).
      assert (i1 = i2) as -> by by eapply linked_injective.
      done.
    + apply (NoDup_fmap_1 fst). rewrite Hfst. apply NoDup_seq.
  - exists (iP, (ptr, c)). split; [|done]. by eapply links_linked.
Qed.

End FillMaps.

(** ** The body of the loop *)

Section Body.
Context `{Externals}.
Variable f : ElectronsFiller.
Variable ev : Event.

Lemma photonLoop_plain {A : Type} (g : PElectron → A) (scRef : nat) (scEta : Q)
    (iPh : nat) (phs : list Photon) (out : PElectron) :
  (∀ ch nh ph o, g (set_photonIso ch nh ph o) = g o) →
  g (photonLoop f ev scRef scEta iPh phs out) = g out.
Proof.
  intros Hg. revert out. induction phs as [|photon rest IH]; intros out; simpl; [done|].
  rewrite IH. by destruct (ph_superCluster photon =? scRef).
Qed.

Lemma triggerLoop_plain {A : Type} (g : PElectron → A) (hlt : nat → list TriggerObject)
    (e : GsfElectron) (iFs : list nat) (out : PElectron) :
  (∀ iF o, g (set_matchHLT iF o) = g o) →
  g (fold_left
       (λ o iF, match matchScan e (hlt iF) with
                | Some _ => set_matchHLT iF o
                | None => o
                end) iFs out) = g out.
Proof.
  intros Hg. revert out. induction iFs as [|iF rest IH]; intros out; simpl; [done|].
  rewrite IH. by destruct (matchScan e (hlt iF)).
Qed.

Lemma triggerMatch_plain {A : Type} (g : PElectron → A) (hlt : nat → list TriggerObject)
    (e : GsfElectron) (out : PElectron) :
  (∀ iF o, g (set_matchHLT iF o) = g o) →
  g (triggerMatch f hlt e out) = g out.
Proof.
  intros Hg. unfold triggerMatch. destruct (useTrigger_ f); [|done].
  by apply triggerLoop_plain.
Qed.

Lemma caloIso_Ok (iEl : nat) (e : GsfElectron) (scEta ecal hcal : Q) :
  caloIso f ev iEl e scEta = Ok (ecal, hcal) →
  ecal = corrected (fst (raw_caloIso ev iEl e)) (ecalIsoEA_ f) scEta (rhoCentralCalo ev) ∧
  hcal = corrected (snd (raw_caloIso ev iEl e)) (hcalIsoEA_ f) scEta (rhoCentralCalo ev) ∧
  (gsf_pat e = None → ecalIsoToken_ f = true ∧ hcalIsoToken_ f = true).
Proof.
  unfold caloIso, raw_caloIso, corrected.
  destruct (gsf_pat e) as [p|]; simpl.
  - by intros [= <- <-].
  - destruct (ecalIsoToken_ f), (hcalIsoToken_ f); simpl; try discriminate.
    by intros [= <- <-].
Qed.

Lemma caloIso_Throw (iEl : nat) (e : GsfElectron) (scEta : Q) (ex : Exception) :
  caloIso f ev iEl e scEta = Throw ex →
  gsf_pat e = None ∧
  ((ecalIsoToken_ f = false ∧ ex = Configuration "ECAL PF cluster iso missing") ∨
   (ecalIsoToken_ f = true ∧ hcalIsoToken_ f = false ∧
    ex = Configuration "HCAL PF cluster iso missing")).
Proof.
  unfold caloIso. destruct (gsf_pat e) as [p|]; [discriminate|].
  destruct (ecalIsoToken_ f), (hcalIsoToken_ f); simpl; intros [= <-]; auto.
Qed.

(** The record made from a candidate, before the conditional writes. *)
Lemma fillElectron_Ok (hlt : nat → list TriggerObject) (iEl : nat) (e : GsfElectron)
    (v : bool) (r : PElectron) :
  fillElectron f ev hlt iEl e v = Ok r →
  ∃ ecal hcal,
    caloIso f ev iEl e (Qabs (superClusterEta ev (gsf_superCluster e))) = Ok (ecal, hcal) ∧
    r = (let o := fillCommon f ev iEl e v (Qabs (superClusterEta ev (gsf_superCluster e)))
                    ecal hcal (fillP4 create_back e) in
         let o := photonLoop f ev (gsf_superCluster e)
                    (Qabs (superClusterEta ev (gsf_superCluster e))) 0 (photons ev) o in
         let o := triggerMatch f hlt e o in
         if negb (isRealData ev) then set_decays false false o else o).
Proof.
  unfold fillElectron. intros ([ecal hcal] & Hcalo & [= <-])%bind_Ok.
  by exists ecal, hcal.
Qed.

Lemma fillElectron_plain {A : Type} (g : PElectron → A) (hlt : nat → list TriggerObject)
    (iEl : nat) (e : GsfElectron) (v : bool) (r : PElectron) :
  plain_member g →
  fillElectron f ev hlt iEl e v = Ok r →
  ∃ ecal hcal,
    caloIso f ev iEl e (Qabs (superClusterEta ev (gsf_superCluster e))) = Ok (ecal, hcal) ∧
    g r = g (fillCommon f ev iEl e v (Qabs (superClusterEta ev (gsf_superCluster e)))
               ecal hcal (fillP4 create_back e)).
Proof.
  intros (Hph & Hhlt & Hdec) (ecal & hcal & Hcalo & ->)%fillElectron_Ok.
  exists ecal, hcal. split; [done|]. simpl.
  assert (Hrest : ∀ o, g (if negb (isRealData ev) then set_decays false false o else o) = g o).
  { intros o. by destruct (negb (isRealData ev)). }
  by rewrite Hrest, triggerMatch_plain, photonLoop_plain.
Qed.

Lemma fillElectron_Throw (hlt : nat → list TriggerObject) (iEl : nat) (e : GsfElectron)
    (v : bool) (ex : Exception) :
  fillElectron f ev hlt iEl e v = Throw ex →
  caloIso f ev iEl e (Qabs (superClusterEta ev (gsf_superCluster e))) = Throw ex.
Proof.
  unfold fillElectron. intros [Hthrow | ([ecal hcal] & _ & [=])]%bind_Throw. done.
Qed.

End Body.

(** ** Records and the candidates they are made from *)

Section Origin.
Context `{Externals}.
Variable f : ElectronsFiller.
Variable ev : Event.

(** Once the loop has succeeded, the rest of [fill] cannot fail. *)
Lemma fill_after_loop (created : list PElectron) (ptrList : list nat) :
  fillLoop f ev (hltObjects f ev) 0 (inElectrons ev) [] [] = Ok (created, ptrList) →
  ∃ out, fill f ev = Ok out.
Proof.
  intros Hloop. unfold fill. rewrite Hloop.
  change (Ok (created, ptrList) ≫= ?k) with (k (created, ptrList)). cbv beta iota.
  destruct (sort ptGreater created) as [sorted idx] eqn:Hsort.
  destruct (mapLoop_total ev ptrList idx (seq 0 (length sorted))
              ObjectMap_empty ObjectMap_empty) as (m1 & m2 & Hmap).
  - apply Forall_forall. intros iP [_ Hlt]%elem_of_seq.
    destruct (lookup_lt_is_Some_2 sorted iP) as [r Hr]; [lia|].
    destruct (sorted_linked f ev _ _ _ _ _ _ Hloop Hsort Hr) as (ptr & e & Hlink & _).
    eauto.
  - rewrite Hmap. simpl. eauto.
Qed.

Lemma fill_Throw_inv (ex : Exception) :
  fill f ev = Throw ex →
  ∃ iEl e, inElectrons ev !! iEl = Some e ∧ selected f ev iEl e ∧
           fillElectron f ev (hltObjects f ev) iEl e true = Throw ex.
Proof.
  intros Hfill.
  destruct (fillLoop f ev (hltObjects f ev) 0 (inElectrons ev) [] [])
    as [[created ptrList]|ex'] eqn:Hloop.
  - destruct (fill_after_loop _ _ Hloop) as (out & Hout). congruence.
  - assert (ex' = ex) as ->.
    { unfold fill in Hfill. rewrite Hloop in Hfill. simpl in Hfill. congruence. }
    by apply (fillLoop_Throw f ev _ (inElectrons ev) [] [] [] ex).
Qed.

Variable out : FillOutput.
Variables (created : list PElectron) (ptrList idx : list nat).
Hypothesis Hstages : fill_stages f ev out created ptrList idx.

Lemma made_from_filled (iP : nat) (r : PElectron) (iEl : nat) (e : GsfElectron) :
  made_from ev out iP r iEl e →
  selected f ev iEl e ∧ fillElectron f ev (hltObjects f ev) iEl e true = Ok r.
Proof.
  intros (Hr & Hbwd & He).
  pose proof Hstages as (Hloop & Hsort & _).
  apply (eleEleMap_bwd f ev out created ptrList idx Hstages) in Hbwd as (_ & sc & Hlink).
  destruct (sorted_linked f ev _ _ _ _ _ _ Hloop Hsort Hr)
    as (ptr & e' & Hlink' & He' & Hsel & Hfill).
  destruct (linked_functional _ _ _ _ _ _ _ _ Hlink Hlink') as [-> _].
  by simplify_eq.
Qed.

Lemma record_origin (iP : nat) (r : PElectron) :
  outElectrons out !! iP = Some r → ∃ iEl e, made_from ev out iP r iEl e.
Proof.
  intros Hr. pose proof Hstages as (Hloop & Hsort & _).
  destruct (sorted_linked f ev _ _ _ _ _ _ Hloop Hsort Hr)
    as (ptr & e & Hlink & He & _).
  exists ptr, e. split_and!; [done| |done].
  apply (eleEleMap_bwd f ev out created ptrList idx Hstages).
  split; [by eapply lookup_lt_Some | eauto].
Qed.

Lemma selected_yields (iEl : nat) (e : GsfElectron) :
  inElectrons ev !! iEl = Some e → selected f ev iEl e →
  ∃ iP r, made_from ev out iP r iEl e.
Proof.
  intros He Hsel. pose proof Hstages as (Hloop & Hsort & _).
  destruct (fillLoop_structure f ev _ _ Hloop) as [Hptrs Hall].
  destruct (sort_spec _ _ _ Hsort) as (Hperm & _ & Hlen & Hlenidx & Hpos & _).
  assert (Hin : iEl ∈ ptrList).
  { rewrite Hptrs. apply (selection_lookup f ev (inElectrons ev) []).
    exists e. simpl. split_and!; [done | lia | done]. }
  apply list_elem_of_lookup in Hin as (i & Hi).
  destruct (Forall2_lookup_l _ _ _ _ _ Hall Hi) as (r & Hr & _).
  assert (Hiin : i ∈ idx).
  { rewrite Hperm. apply elem_of_seq. apply lookup_lt_Some in Hr. lia. }
  apply list_elem_of_lookup in Hiin as (iP & HiP).
  destruct (lookup_lt_is_Some_2 (outElectrons out) iP) as [r' Hr'].
  { apply lookup_lt_Some in HiP. lia. }
  destruct (Hpos _ _ Hr') as (i' & Hi' & Hc).
  assert (i' = i) as -> by congruence.
  assert (r' = r) as -> by congruence.
  exists iP, r. split_and!; [done| |done].
  apply (eleEleMap_bwd f ev out created ptrList idx Hstages).
  split; [by eapply lookup_lt_Some|].
  exists (gsf_superCluster e), i, e. done.
Qed.

End Origin.

(** * Main results *)

(** ** Selection *)

(** C3.  A call of [fill] either stops on the configuration error of a
    selected candidate that has no calorimeter isolation of its own, or
    returns an output in which a candidate has a record if and only if
    [pt >= minPt], [|eta| <= maxEta] and its veto flag is true.  Before the
    ranking the pointer list holds exactly the selected candidates in
    increasing input position, and the created records are, one for one and
    in that order, the records made from them; every final record comes from
    a candidate. *)
Theorem fill_selects_candidates `{Externals} (f : ElectronsFiller) (ev : Event) :
  match fill f ev with
  | Ok out =>
      ∃ created ptrList idx,
        fill_stages f ev out created ptrList idx ∧
        (∀ iEl e, inElectrons ev !! iEl = Some e →
           ((∃ iP r, made_from ev out iP r iEl e) ↔ selected f ev iEl e)) ∧
        (∀ iP r, outElectrons out !! iP = Some r → ∃ iEl e, made_from ev out iP r iEl e) ∧
        (∀ iEl e, inElectrons ev !! iEl = Some e →
           (iEl ∈ ptrList ↔ selected f ev iEl e)) ∧
        StronglySorted lt ptrList ∧
        Forall2 (filled_from f ev (hltObjects f ev)) ptrList created
  | Throw ex =>
      ∃ iEl e, inElectrons ev !! iEl = Some e ∧ selected f ev iEl e ∧
               gsf_pat e = None ∧ (ecalIsoToken_ f = false ∨ hcalIsoToken_ f = false)
  end.
Proof.
  destruct (fill f ev) as [out|ex] eqn:Hfill.
  - destruct (fill_Ok_inv f ev out Hfill) as (created & ptrList & idx & Hstages).
    exists created, ptrList, idx.
    pose proof Hstages as (Hloop & Hsort & Hmap).
    destruct (fillLoop_structure f ev _ _ Hloop) as [Hptrs Hall].
    split_and!; [done| | | | |done].
    + intros iEl e He. split.
      * intros (iP & r & Hmade).
        by destruct (made_from_filled f ev out created ptrList idx Hstages _ _ _ _ Hmade).
      * by apply (selected_yields f ev out created ptrList idx Hstages).
    + apply (record_origin f ev out created ptrList idx Hstages).
    + intros iEl e He. rewrite Hptrs.
      rewrite (selection_lookup f ev (inElectrons ev) [] iEl). simpl. split.
      * intros (e' & He' & _ & Hsel). by simplify_eq.
      * intros Hsel. exists e. split_and!; [done | lia | done].
    + rewrite Hptrs. apply selection_sorted.
  - destruct (fill_Throw_inv f ev ex Hfill) as (iEl & e & He & Hsel & Hthrow).
    apply fillElectron_Throw, caloIso_Throw in Hthrow as [Hpat Htok].
    exists iEl, e. split_and!; [done..|].
    destruct Htok as [[? _] | (_ & ? & _)]; auto.
Qed.

(** ** The veto flag *)

(** C10.  Every record of a returned output carries a true veto flag: it is
    the veto decision of the candidate the record was made from, which is true
    for every candidate that reaches the record creation. *)
Theorem records_carry_veto `{Externals} (f : ElectronsFiller) (ev : Event)
    (out : FillOutput) (iP : nat) (r : PElectron) :
  fill f ev = Ok out →
  outElectrons out !! iP = Some r →
  veto r = true ∧ ∃ iEl e, made_from ev out iP r iEl e ∧ veto r = vetoId ev iEl.
Proof.
  intros (created & ptrList & idx & Hstages)%fill_Ok_inv Hr.
  destruct (record_origin f ev out created ptrList idx Hstages _ _ Hr)
    as (iEl & e & Hmade).
  destruct (made_from_filled f ev out created ptrList idx Hstages _ _ _ _ Hmade)
    as [(_ & _ & Hveto) Hfill].
  destruct (fillElectron_plain f ev veto _ _ _ _ _ ltac:(by split_and!) Hfill)
    as (ecal & hcal & _ & Hr').
  simpl in Hr'. split; [done|]. exists iEl, e. split; [done | congruence].
Qed.

Lemma records_carry_veto_witness :
  @fill demo_externals demo_filler event_three = Ok out_three ∧
  outElectrons out_three !! 0 = Some (record_at out_three 0) ∧
  veto (record_at out_three 0) = true.
Proof.
  assert (Hfill : @fill demo_externals demo_filler event_three = Ok out_three)
    by (vm_compute; reflexivity).
  assert (Hr : outElectrons out_three !! 0 = Some (record_at out_three 0))
    by (vm_compute; reflexivity).
  split_and!; [exact Hfill | exact Hr |].
  exact (proj1 (@records_carry_veto demo_externals demo_filler event_three
                  out_three 0 (record_at out_three 0) Hfill Hr)).
Defined.

(** ** Isolation sums *)

Lemma made_from_members `{Externals} (f : ElectronsFiller) (ev : Event) (out : FillOutput)
    (iP : nat) (r : PElectron) (iEl : nat) (e : GsfElectron) :
  fill f ev = Ok out → made_from ev out iP r iEl e →
  selected f ev iEl e ∧
  ∃ ecal hcal,
    caloIso f ev iEl e (Qabs (superClusterEta ev (gsf_superCluster e))) = Ok (ecal, hcal) ∧
    ∀ (A : Type) (g : PElectron → A), plain_member g →
      g r = g (fillCommon f ev iEl e true (Qabs (superClusterEta ev (gsf_superCluster e)))
                 ecal hcal (fillP4 create_back e)).
Proof.
  intros (created & ptrList & idx & Hstages)%fill_Ok_inv Hmade.
  destruct (made_from_filled f ev out created ptrList idx Hstages _ _ _ _ Hmade)
    as [Hsel Hfill].
  split; [done|].
  destruct (fillElectron_Ok f ev _ _ _ _ _ Hfill) as (ecal & hcal & Hcalo & _).
  exists ecal, hcal. split; [done|]. intros A g Hg.
  destruct (fillElectron_plain f ev g _ _ _ _ _ Hg Hfill) as (ecal' & hcal' & Hcalo' & Hr).
  congruence.
Qed.

(** C1, amended.  With doubles read as rationals, so leaving the rounding of
    the double arithmetic and of the store into the member aside: on every
    record the two calorimeter-cluster isolations are the raw sum minus the
    effective area at the absolute supercluster pseudorapidity times the
    central-calorimeter density.  The charged, neutral-hadron, photon and
    pileup sums are the sums read from the candidate, with nothing
    subtracted, and the product of the filler's own effective area and the
    pileup density is stored next to them as the pileup offset. *)
Theorem isolation_sums `{Externals} (f : ElectronsFiller) (ev : Event) (out : FillOutput)
    (iP : nat) (r : PElectron) (iEl : nat) (e : GsfElectron) :
  fill f ev = Ok out → made_from ev out iP r iEl e →
  let absEta := Qabs (superClusterEta ev (gsf_superCluster e)) in
  let pfIso := pfIsolationVariables e in
  ecaliso r = corrected (fst (raw_caloIso ev iEl e)) (ecalIsoEA_ f) absEta
                (rhoCentralCalo ev) ∧
  hcaliso r = corrected (snd (raw_caloIso ev iEl e)) (hcalIsoEA_ f) absEta
                (rhoCentralCalo ev) ∧
  chiso r = sumChargedHadronPt pfIso ∧
  nhiso r = sumNeutralHadronEt pfIso ∧
  phoiso r = sumPhotonEt pfIso ∧
  puiso r = sumPUPt pfIso ∧
  isoPUOffset r = (getEffectiveArea (combIsoEA_ f) absEta * rho ev)%Q.
Proof.
  intros Hfill Hmade.
  destruct (made_from_members f ev out iP r iEl e Hfill Hmade)
    as (_ & ecal & hcal & Hcalo & Hg).
  apply caloIso_Ok in Hcalo as (-> & -> & _).
  simpl. split_and!; by rewrite Hg by (by split_and!).
Qed.

Lemma isolation_sums_witness :
  ecaliso (record_at out_one 0) = 6%Q ∧ chiso (record_at out_one 0) = 5%Q ∧
  isoPUOffset (record_at out_one 0) = (1 * 2)%Q.
Proof.
  assert (Hfill : @fill demo_externals demo_filler event_one = Ok out_one)
    by (vm_compute; reflexivity).
  assert (Hmade : made_from event_one out_one 0 (record_at out_one 0) 0 (patElectron 50 1 3))
    by (split_and!; vm_compute; reflexivity).
  pose proof (@isolation_sums demo_externals demo_filler event_one out_one 0
                (record_at out_one 0) 0 (patElectron 50 1 3) Hfill Hmade)
    as (Hecal & _ & Hch & _ & _ & _ & Hoff).
  split_and!; [rewrite Hecal | rewrite Hch | rewrite Hoff]; vm_compute; reflexivity.
Defined.

(** C1, as stated, fails on an event with one electron whose charged sum is
    5, with effective area 1 and pileup density 2: the record holds 5, the
    corrected sum would be 3. *)
Lemma charged_sum_not_corrected :
  ¬ @all_channels_corrected demo_externals demo_filler event_one.
Proof.
  intros Hall.
  assert (Hfill : @fill demo_externals demo_filler event_one = Ok out_one)
    by (vm_compute; reflexivity).
  assert (Hmade : made_from event_one out_one 0 (record_at out_one 0) 0 (patElectron 50 1 3))
    by (split_and!; vm_compute; reflexivity).
  destruct (Hall _ _ _ _ _ Hfill Hmade) as (Hch & _).
  vm_compute in Hch. discriminate.
Qed.

(** ** Calorimeter isolation from the side maps *)

(** C8.  Take a selected candidate that is not a pat::Electron.  If the ECAL
    side map is not configured, [fill] throws the configuration error
    "ECAL PF cluster iso missing"; if the ECAL one is but the HCAL one is
    not, it throws "HCAL PF cluster iso missing".  If [fill] returns, both
    are configured and the record of the candidate holds the entries of the
    side maps corrected with the central-calorimeter density. *)
Theorem side_map_isolation `{Externals} (f : ElectronsFiller) (ev : Event)
    (iEl : nat) (e : GsfElectron) :
  inElectrons ev !! iEl = Some e → selected f ev iEl e → gsf_pat e = None →
  let absEta := Qabs (superClusterEta ev (gsf_superCluster e)) in
  match fill f ev with
  | Throw ex =>
      (ecalIsoToken_ f = false ∧ ex = Configuration "ECAL PF cluster iso missing") ∨
      (ecalIsoToken_ f = true ∧ hcalIsoToken_ f = false ∧
       ex = Configuration "HCAL PF cluster iso missing")
  | Ok out =>
      ecalIsoToken_ f = true ∧ hcalIsoToken_ f = true ∧
      ∃ iP r, made_from ev out iP r iEl e ∧
        ecaliso r = corrected (ecalIsoProduct ev iEl) (ecalIsoEA_ f) absEta
                      (rhoCentralCalo ev) ∧
        hcaliso r = corrected (hcalIsoProduct ev iEl) (hcalIsoEA_ f) absEta
                      (rhoCentralCalo ev)
  end.
Proof.
  intros He Hsel Hpat absEta.
  destruct (fill f ev) as [out|ex] eqn:Hfill.
  - destruct (fill_Ok_inv f ev out Hfill) as (created & ptrList & idx & Hstages).
    destruct (selected_yields f ev out created ptrList idx Hstages _ _ He Hsel)
      as (iP & r & Hmade).
    destruct (made_from_members f ev out iP r iEl e Hfill Hmade)
      as (_ & ecal & hcal & Hcalo & Hg).
    apply caloIso_Ok in Hcalo as (-> & -> & Htok). destruct (Htok Hpat) as [Hecal Hhcal].
    split_and!; [done..|]. exists iP, r. split; [done|].
    rewrite (Hg _ ecaliso), (Hg _ hcaliso) by (by split_and!).
    simpl. unfold raw_caloIso. by rewrite Hpat.
  - destruct (fill_Throw_inv f ev ex Hfill) as (iEl' & e' & _ & _ & Hthrow).
    by apply fillElectron_Throw, caloIso_Throw in Hthrow as [_ Htok].
Qed.

Lemma side_map_isolation_witness :
  match @fill demo_externals demo_filler event_reco with
  | Throw ex => ex = Configuration "ECAL PF cluster iso missing"
  | Ok _ => False
  end ∧
  match @fill demo_externals demo_filler_maps event_reco with
  | Throw _ => False
  | Ok out => ∃ iP r, made_from event_reco out iP r 0 (recoElectron 50 1 3) ∧
                      ecaliso r = corrected 9 (flat_area 1) (Qabs 1) 3
  end.
Proof.
  assert (Hin : inElectrons event_reco !! 0 = Some (recoElectron 50 1 3)) by reflexivity.
  assert (Hsel : selected demo_filler event_reco 0 (recoElectron 50 1 3))
    by (apply selectedb_spec; vm_compute; reflexivity).
  assert (Hsel' : selected demo_filler_maps event_reco 0 (recoElectron 50 1 3))
    by (apply selectedb_spec; vm_compute; reflexivity).
  pose proof (@side_map_isolation demo_externals demo_filler event_reco 0
                (recoElectron 50 1 3) Hin Hsel eq_refl) as Hmissing.
  pose proof (@side_map_isolation demo_externals demo_filler_maps event_reco 0
                (recoElectron 50 1 3) Hin Hsel' eq_refl) as Hpresent.
  cbv zeta in Hmissing, Hpresent. split.
  - destruct (@fill demo_externals demo_filler event_reco) as [out|ex].
    + destruct Hmissing as (Htok & _). discriminate Htok.
    + destruct Hmissing as [[_ ->] | (Htok & _)]; [reflexivity | discriminate Htok].
  - destruct (@fill demo_externals demo_filler_maps event_reco) as [out|ex].
    + destruct Hpresent as (_ & _ & iP & r & Hmade & Hecal & _). by exists iP, r.
    + destruct Hpresent as [[Htok _] | (_ & Htok & _)]; discriminate Htok.
Defined.

(** ** The photon scan *)

(** Whatever photon matches, the sums are read at the index the scan started
    with. *)
Lemma photonLoop_index `{Externals} (f : ElectronsFiller) (ev : Event) (scRef : nat)
    (scEta : Q) (iPh : nat) (phs : list Photon) (out : PElectron) :
  photonLoop f ev scRef scEta iPh phs out =
  if existsb (λ photon, ph_superCluster photon =? scRef) phs
  then set_photonIso
         (corrected (phCHIso ev iPh) (phCHIsoEA_ f) scEta (rho ev))
         (corrected (phNHIso ev iPh) (phNHIsoEA_ f) scEta (rho ev))
         (corrected (phPhIso ev iPh) (phPhIsoEA_ f) scEta (rho ev)) out
  else out.
Proof.
  revert out. induction phs as [|photon rest IH]; intros out; simpl; [done|].
  rewrite IH. destruct (ph_superCluster photon =? scRef); simpl; [|done].
  by destruct (existsb _ rest).
Qed.

(** C2, the code at the failing input.  The event has one electron on
    supercluster 3 and two photons, the first on supercluster 7 with sums 1,
    the second on supercluster 3 with sums 5.  The record holds the sums of
    the first photon, which does not match, and not those of the second,
    which does. *)
Theorem photon_sums_read_at_index_zero :
  let ev := event_second_photon in
  let r := record_at out_second_photon 0 in
  let absEta := Qabs (superClusterEta ev 3) in
  @fill demo_externals demo_filler ev = Ok out_second_photon ∧
  outElectrons out_second_photon = [r] ∧
  photons ev = [ {| ph_superCluster := 7 |}; {| ph_superCluster := 3 |} ] ∧
  made_from ev out_second_photon 0 r 0 (patElectron 50 1 3) ∧
  chisoPh r = corrected (phCHIso ev 0) (phCHIsoEA_ demo_filler) absEta (rho ev) ∧
  nhisoPh r = corrected (phNHIso ev 0) (phNHIsoEA_ demo_filler) absEta (rho ev) ∧
  phisoPh r = corrected (phPhIso ev 0) (phPhIsoEA_ demo_filler) absEta (rho ev) ∧
  (chisoPh r == 1)%Q ∧
  (corrected (phCHIso ev 1) (phCHIsoEA_ demo_filler) absEta (rho ev) == 5)%Q ∧
  ¬ (chisoPh r == corrected (phCHIso ev 1) (phCHIsoEA_ demo_filler) absEta (rho ev))%Q.
Proof.
  cbv zeta. split_and!; try (vm_compute; reflexivity).
  - split_and!; vm_compute; reflexivity.
  - vm_compute. discriminate.
Qed.

(** ** The default cuts *)

(** C9, amended.  When [minPt] is not configured the cut value is -1, and the
    transverse-momentum test lets a candidate through exactly when its
    transverse momentum is at least -1, so every candidate of non-negative
    transverse momentum passes it.  When [maxEta] is not configured the cut
    value is 10, and the pseudorapidity test lets a candidate through
    exactly when [|eta| <= 10]. *)
Theorem default_cuts `{Externals} (cfg : ParameterSet) (f : ElectronsFiller)
    (e : GsfElectron) :
  ElectronsFiller_new cfg = Ok f →
  (cfg_minPt cfg = None →
     minPt_ f = (-1)%Q ∧
     (Qltb (gsf_pt e) (minPt_ f) = false ↔ (-1 <= gsf_pt e)%Q) ∧
     ((0 <= gsf_pt e)%Q → Qltb (gsf_pt e) (minPt_ f) = false)) ∧
  (cfg_maxEta cfg = None →
     maxEta_ f = 10%Q ∧
     (Qltb (maxEta_ f) (Qabs (gsf_eta e)) = false ↔ (Qabs (gsf_eta e) <= 10)%Q)).
Proof.
  intros Hnew.
  assert (Hcuts : minPt_ f = default (-1)%Q (cfg_minPt cfg) ∧
                  maxEta_ f = default 10%Q (cfg_maxEta cfg)).
  { unfold ElectronsFiller_new in Hnew. simpl in Hnew.
    destruct (cfg_useTrigger cfg).
    - destruct (negb _); [discriminate|]. by injection Hnew as <-.
    - by injection Hnew as <-. }
  destruct Hcuts as [Hpt Heta]. split.
  - intros Hnone. rewrite Hnone in Hpt. simpl in Hpt. rewrite Hpt.
    split_and!; [done | apply Qltb_false |].
    intros Hpos. apply Qltb_false. by apply Qle_trans with 0%Q.
  - intros Hnone. rewrite Hnone in Heta. simpl in Heta. rewrite Heta.
    split; [done | apply Qltb_false].
Qed.

Lemma default_cuts_witness :
  Qltb (gsf_pt (patElectron 50 1 3)) (minPt_ demo_filler) = false ∧
  Qltb (maxEta_ demo_filler) (Qabs (gsf_eta (patElectron 50 1 3))) = false.
Proof.
  assert (Hnew : @ElectronsFiller_new demo_externals demo_config = Ok demo_filler)
    by reflexivity.
  destruct (@default_cuts demo_externals demo_config demo_filler (patElectron 50 1 3) Hnew)
    as [Hpt Heta].
  destruct (Hpt eq_refl) as (_ & _ & Hpass).
  destruct (Heta eq_refl) as (_ & Hpass').
  split; [apply Hpass | apply Hpass']; vm_compute; discriminate.
Defined.

(** C9, as stated, fails for a candidate at pseudorapidity 11: with [maxEta]
    not configured the pseudorapidity test rejects it. *)
Lemma default_maxEta_rejects :
  ¬ @default_cuts_keep demo_externals demo_config (patElectron 50 11 3).
Proof.
  intros Hkeep.
  destruct (Hkeep demo_filler eq_refl) as [_ Heta].
  specialize (Heta eq_refl). vm_compute in Heta. discriminate.
Qed.

(** ** Trigger matching *)

Section Trigger.
Context `{Externals}.
Variable f : ElectronsFiller.
Variable ev : Event.

Lemma collect_hltObject_at (obj : TriggerObject) (k a : nat)
    (arr : nat → list TriggerObject) (i : nat) :
  fold_left
    (λ acc iF, if hasFilterLabel obj (hltFilter f iF) then push_hltObject iF obj acc else acc)
    (seq a k) arr i =
  if bool_decide (a ≤ i < a + k) && hasFilterLabel obj (hltFilter f i)
  then arr i ++ [obj] else arr i.
Proof.
  revert a arr. induction k as [|k IH]; intros a arr; simpl.
  - rewrite bool_decide_eq_false_2 by lia. done.
  - rewrite IH. destruct (decide (i = a)) as [->|Hne].
    + rewrite bool_decide_eq_false_2 by lia. rewrite bool_decide_eq_true_2 by lia. simpl.
      destruct (hasFilterLabel obj (hltFilter f a)); [|done].
      unfold push_hltObject. by rewrite Nat.eqb_refl.
    + assert (Hsame : (if hasFilterLabel obj (hltFilter f a)
                       then push_hltObject a obj arr else arr) i = arr i).
      { destruct (hasFilterLabel obj (hltFilter f a)); [|done].
        unfold push_hltObject. by rewrite (proj2 (Nat.eqb_neq i a)). }
      rewrite Hsame.
      destruct (decide (S a ≤ i < S a + k)).
      * rewrite !bool_decide_eq_true_2 by lia. done.
      * rewrite !bool_decide_eq_false_2 by lia. done.
Qed.

Lemma collect_all_at (objs : list TriggerObject) (arr : nat → list TriggerObject) (i : nat) :
  i < nElectronHLTObjects →
  fold_left (λ a obj, collect_hltObject f obj a) objs arr i =
  arr i ++ List.filter (λ obj, hasFilterLabel obj (hltFilter f i)) objs.
Proof.
  intros Hi. revert arr. induction objs as [|obj objs IH]; intros arr; simpl.
  - by rewrite app_nil_r.
  - rewrite IH. unfold collect_hltObject. rewrite collect_hltObject_at.
    rewrite bool_decide_eq_true_2 by lia. simpl.
    destruct (hasFilterLabel obj (hltFilter f i)); [|done].
    by rewrite <- app_assoc.
Qed.

(** The trigger objects of a category are those that carry its label, in the
    order of the trigger collection. *)
Lemma hltObjects_at (iF : nat) :
  useTrigger_ f = true → iF < nElectronHLTObjects →
  hltObjects f ev iF =
  List.filter (λ obj, hasFilterLabel obj (hltFilter f iF)) (triggerObjects ev).
Proof.
  intros Huse HiF. unfold hltObjects. rewrite Huse. by rewrite collect_all_at.
Qed.

Lemma matchScan_Some (e : GsfElectron) (objs : list TriggerObject) (k : nat) :
  matchScan e objs = Some k →
  ∃ obj, objs !! k = Some obj ∧ (deltaR e obj < 3 # 10)%Q ∧
         ∀ j obj', j < k → objs !! j = Some obj' → ¬ (deltaR e obj' < 3 # 10)%Q.
Proof.
  revert k. induction objs as [|obj rest IH]; intros k; simpl; [discriminate|].
  destruct (Qltb (deltaR e obj) (3 # 10)) eqn:Hnear.
  - intros [= <-]. exists obj. split_and!; [done | by apply Qltb_true | lia].
  - destruct (matchScan e rest) as [k'|]; [|discriminate].
    simpl. intros [= <-]. destruct (IH k' eq_refl) as (obj' & Hk' & Hlt & Hfirst).
    exists obj'. split_and!; [done..|].
    intros [|j] obj'' Hj Hobj''; simpl in Hobj''.
    + injection Hobj'' as <-. rewrite <- Qltb_true. congruence.
    + apply (Hfirst j); [lia | done].
Qed.

Lemma matchScan_None (e : GsfElectron) (objs : list TriggerObject) :
  matchScan e objs = None →
  ∀ obj, obj ∈ objs → ¬ (deltaR e obj < 3 # 10)%Q.
Proof.
  induction objs as [|obj rest IH]; simpl; [by intros _ ? ?%elem_of_nil|].
  destruct (Qltb (deltaR e obj) (3 # 10)) eqn:Hnear; [discriminate|].
  destruct (matchScan e rest) as [k'|]; [discriminate|].
  intros _ obj' [-> | Hin]%elem_of_cons.
  - rewrite <- Qltb_true. congruence.
  - by apply IH.
Qed.

Lemma triggerLoop_at (hlt : nat → list TriggerObject) (e : GsfElectron)
    (k a : nat) (out : PElectron) (i : nat) :
  matchHLT (fold_left
              (λ o iF, match matchScan e (hlt iF) with
                       | Some _ => set_matchHLT iF o
                       | None => o
                       end) (seq a k) out) i =
  if bool_decide (a ≤ i < a + k) && bool_decide (is_Some (matchScan e (hlt i)))
  then true else matchHLT out i.
Proof.
  revert a out. induction k as [|k IH]; intros a out; simpl.
  - rewrite (bool_decide_eq_false_2 (a ≤ i < a + 0)) by lia. done.
  - rewrite IH. destruct (decide (i = a)) as [->|Hne].
    + rewrite (bool_decide_eq_false_2 (S a ≤ a < S a + k)) by lia.
      rewrite (bool_decide_eq_true_2 (a ≤ a < a + S k)) by lia. simpl.
      destruct (matchScan e (hlt a)) as [k'|]; simpl.
      * by rewrite Nat.eqb_refl.
      * done.
    + assert (Hsame : matchHLT (match matchScan e (hlt a) with
                                | Some _ => set_matchHLT a out
                                | None => out
                                end) i = matchHLT out i).
      { destruct (matchScan e (hlt a)); [|done]. simpl.
        by rewrite (proj2 (Nat.eqb_neq i a)). }
      rewrite Hsame.
      destruct (decide (S a ≤ i < S a + k)).
      * rewrite (bool_decide_eq_true_2 (S a ≤ i < S a + k)) by lia.
        rewrite (bool_decide_eq_true_2 (a ≤ i < a + S k)) by lia. done.
      * rewrite (bool_decide_eq_false_2 (S a ≤ i < S a + k)) by lia.
        rewrite (bool_decide_eq_false_2 (a ≤ i < a + S k)) by lia. done.
Qed.

End Trigger.

Lemma new_hltFilters_length `{Externals} (cfg : ParameterSet) (f : ElectronsFiller) :
  ElectronsFiller_new cfg = Ok f → useTrigger_ f = true →
  length (hltFilters_ f) = nElectronHLTObjects.
Proof.
  unfold ElectronsFiller_new. simpl. destruct (cfg_useTrigger cfg).
  - destruct (length (cfg_hltFilters cfg) =? nElectronHLTObjects) eqn:Hlen; simpl;
      [|discriminate].
    intros [= <-] _. simpl. by apply Nat.eqb_eq.
  - intros [= <-]. simpl. discriminate.
Qed.

Lemma fillElectron_matchHLT `{Externals} (f : ElectronsFiller) (ev : Event)
    (hlt : nat → list TriggerObject) (iEl : nat) (e : GsfElectron) (v : bool)
    (r : PElectron) (iF : nat) :
  fillElectron f ev hlt iEl e v = Ok r →
  matchHLT r iF =
  if useTrigger_ f && bool_decide (iF < nElectronHLTObjects)
       && bool_decide (is_Some (matchScan e (hlt iF)))
  then true else matchHLT create_back iF.
Proof.
  intros (ecal & hcal & _ & ->)%fillElectron_Ok. cbv zeta.
  set (o := photonLoop f ev _ _ 0 (photons ev) _).
  assert (Ho : matchHLT o iF = matchHLT create_back iF).
  { unfold o. by rewrite (photonLoop_plain f ev matchHLT). }
  assert (Hdec : ∀ o', matchHLT (if negb (isRealData ev)
                                 then set_decays false false o' else o') iF
                       = matchHLT o' iF).
  { intros o'. by destruct (negb (isRealData ev)). }
  rewrite Hdec. unfold triggerMatch. destruct (useTrigger_ f); simpl; [|done].
  rewrite triggerLoop_at, Ho.
  destruct (decide (iF < nElectronHLTObjects)).
  - rewrite (bool_decide_eq_true_2 (0 ≤ iF < 0 + nElectronHLTObjects)) by lia.
    by rewrite (bool_decide_eq_true_2 (iF < nElectronHLTObjects)) by lia.
  - rewrite (bool_decide_eq_false_2 (0 ≤ iF < 0 + nElectronHLTObjects)) by lia.
    by rewrite (bool_decide_eq_false_2 (iF < nElectronHLTObjects)) by lia.
Qed.

(** C7.  For a filler built by the constructor and a record of a returned
    output, made from candidate [e].  With trigger usage on, every category
    [iF] has its filter label, the objects scanned for it are the trigger
    objects carrying that label, in collection order, and: if the scan breaks,
    it breaks at the first scanned object at separation below 3/10 and the
    flag of the category is true; if it does not, no trigger object with the
    label is that close and the flag is as [create_back] left it.  So, when
    [create_back] leaves the flag false, the flag is true if and only if some
    trigger object with the label is at separation below 3/10.  With trigger
    usage off, every flag is as [create_back] left it. *)
Theorem trigger_match `{Externals} (cfg : ParameterSet) (f : ElectronsFiller) (ev : Event)
    (out : FillOutput) (iP : nat) (r : PElectron) (iEl : nat) (e : GsfElectron) :
  ElectronsFiller_new cfg = Ok f → fill f ev = Ok out → made_from ev out iP r iEl e →
  if useTrigger_ f then
    ∀ iF, iF < nElectronHLTObjects →
      ∃ label, hltFilters_ f !! iF = Some label ∧
        let objs := List.filter (λ obj, hasFilterLabel obj label) (triggerObjects ev) in
        hltObjects f ev iF = objs ∧
        match matchScan e objs with
        | Some k =>
            matchHLT r iF = true ∧
            ∃ obj, objs !! k = Some obj ∧ (deltaR e obj < 3 # 10)%Q ∧
                   ∀ j obj', j < k → objs !! j = Some obj' → ¬ (deltaR e obj' < 3 # 10)%Q
        | None =>
            matchHLT r iF = matchHLT create_back iF ∧
            ∀ obj, obj ∈ triggerObjects ev → hasFilterLabel obj label = true →
                   ¬ (deltaR e obj < 3 # 10)%Q
        end ∧
        (matchHLT create_back iF = false →
         (matchHLT r iF = true ↔
          ∃ obj, obj ∈ triggerObjects ev ∧ hasFilterLabel obj label = true ∧
                 (deltaR e obj < 3 # 10)%Q))
  else ∀ iF, matchHLT r iF = matchHLT create_back iF.
Proof.
  intros Hnew Hfill Hmade.
  destruct (fill_Ok_inv f ev out Hfill) as (created & ptrList & idx & Hstages).
  destruct (made_from_filled f ev out created ptrList idx Hstages _ _ _ _ Hmade)
    as [_ Hr].
  destruct (useTrigger_ f) eqn:Huse.
  - intros iF HiF.
    pose proof (new_hltFilters_length cfg f Hnew Huse) as Hlen.
    destruct (lookup_lt_is_Some_2 (hltFilters_ f) iF) as [label Hlabel]; [lia|].
    exists label. split; [done|]. cbv zeta.
    assert (Hobjs : hltObjects f ev iF =
                    List.filter (λ obj, hasFilterLabel obj label) (triggerObjects ev)).
    { rewrite hltObjects_at by done. unfold hltFilter. by rewrite Hlabel. }
    split; [done|].
    rewrite (fillElectron_matchHLT f ev _ _ _ _ _ iF Hr), Huse, Hobjs.
    rewrite (bool_decide_eq_true_2 (iF < nElectronHLTObjects)) by done. simpl.
    destruct (matchScan e _) as [k|] eqn:Hscan.
    + rewrite bool_decide_eq_true_2 by eauto.
      destruct (matchScan_Some _ _ _ Hscan) as (obj & Hk & Hnear & Hfirst).
      split_and!; [done | by exists obj |].
      intros _. split; [|done]. intros _. exists obj.
      assert (Hin : In obj (List.filter (λ obj, hasFilterLabel obj label)
                              (triggerObjects ev))).
      { apply list_elem_of_In, list_elem_of_lookup. by exists k. }
      apply filter_In in Hin as [Hin Hhas].
      split_and!; [by apply list_elem_of_In | done..].
    + rewrite bool_decide_eq_false_2 by (by intros [? ?]).
      assert (Hfar : ∀ obj, obj ∈ triggerObjects ev → hasFilterLabel obj label = true →
                ¬ (deltaR e obj < 3 # 10)%Q).
      { intros obj Hin Hhas. apply (matchScan_None _ _ Hscan).
        apply list_elem_of_In, filter_In. split; [by apply list_elem_of_In | done]. }
      split_and!; [done..|].
      intros Hdefault. rewrite Hdefault. split; [discriminate|].
      intros (obj & Hin & Hhas & Hnear). by destruct (Hfar obj Hin Hhas).
  - intros iF. rewrite (fillElectron_matchHLT f ev _ _ _ _ _ iF Hr), Huse. done.
Qed.

Lemma trigger_match_witness :
  matchHLT (record_at out_trigger 0) 0 = true ∧
  matchHLT (record_at out_trigger 0) 1 = false.
Proof.
  assert (Hnew : @ElectronsFiller_new demo_externals demo_config_trigger
                 = Ok demo_filler_trigger) by reflexivity.
  assert (Hfill : @fill demo_externals demo_filler_trigger event_trigger = Ok out_trigger)
    by (vm_compute; reflexivity).
  assert (Hmade : made_from event_trigger out_trigger 0 (record_at out_trigger 0) 0
                    (patElectron 50 1 3))
    by (split_and!; vm_compute; reflexivity).
  pose proof (@trigger_match demo_externals demo_config_trigger demo_filler_trigger
                event_trigger out_trigger 0 (record_at out_trigger 0) 0
                (patElectron 50 1 3) Hnew Hfill Hmade) as Hmatch.
  change (useTrigger_ demo_filler_trigger) with true in Hmatch. cbv iota in Hmatch.
  split.
  - destruct (Hmatch 0 ltac:(simpl; lia)) as (label & Hlabel & _ & Hscan & _).
    injection Hlabel as <-.
    change (matchScan _ _) with (Some 1) in Hscan. by destruct Hscan as [-> _].
  - destruct (Hmatch 1 ltac:(simpl; lia)) as (label & Hlabel & _ & Hscan & _).
    injection Hlabel as <-.
    change (matchScan _ _) with (@None nat) in Hscan. by destruct Hscan as [-> _].
Defined.

(** ** Ranking *)

Lemma made_from_linked `{Externals} (f : ElectronsFiller) (ev : Event) (out : FillOutput)
    (created : list PElectron) (ptrList idx : list nat)
    (iP : nat) (r : PElectron) (iEl : nat) (e : GsfElectron) :
  fill_stages f ev out created ptrList idx →
  made_from ev out iP r iEl e →
  linked ev ptrList idx iP iEl (gsf_superCluster e) ∧
  ∃ i, idx !! iP = Some i ∧ ptrList !! i = Some iEl ∧ created !! i = Some r.
Proof.
  intros Hstages (Hr & Hbwd & He).
  pose proof Hstages as (Hloop & Hsort & _).
  apply (eleEleMap_bwd f ev out created ptrList idx Hstages) in Hbwd
    as (_ & sc & i & e' & Hi & Hptr & He' & ->).
  assert (e' = e) as -> by congruence.
  split; [by exists i, e|].
  destruct (sort_spec _ _ _ Hsort) as (_ & _ & _ & _ & Hpos & _).
  destruct (Hpos _ _ Hr) as (i' & Hi' & Hc).
  assert (i' = i) as -> by congruence.
  by exists i.
Qed.

(** C4.  In a returned output the records are a rearrangement of the created
    ones: the original indices are a permutation of the positions before the
    sort, and the record at a final position is the created record at its
    original index.  Transverse momentum does not increase along the output.
    Two records of equal transverse momentum stand in the order of their
    original indices, which is also the input order of the candidates they
    were made from. *)
Theorem ranking `{Externals} (f : ElectronsFiller) (ev : Event) (out : FillOutput) :
  fill f ev = Ok out →
  ∃ created ptrList idx,
    fill_stages f ev out created ptrList idx ∧
    idx ≡ₚ seq 0 (length created) ∧
    outElectrons out ≡ₚ created ∧
    (∀ iP r, outElectrons out !! iP = Some r →
       ∃ i, idx !! iP = Some i ∧ created !! i = Some r) ∧
    (∀ i j a b, i < j →
       outElectrons out !! i = Some a → outElectrons out !! j = Some b →
       (pt b <= pt a)%Q) ∧
    (∀ i j a b oi oj, i < j →
       outElectrons out !! i = Some a → outElectrons out !! j = Some b →
       (pt a == pt b)%Q → idx !! i = Some oi → idx !! j = Some oj → oi < oj) ∧
    (∀ i j a b ia ib ea eb, i < j →
       made_from ev out i a ia ea → made_from ev out j b ib eb →
       (pt a == pt b)%Q → ia < ib).
Proof.
  intros (created & ptrList & idx & Hstages)%fill_Ok_inv.
  exists created, ptrList, idx.
  pose proof Hstages as (Hloop & Hsort & _).
  destruct (sort_spec _ _ _ Hsort) as (Hperm & Hrec & _ & _ & Hpos & Horder & Hstable).
  split_and!; [done..|].
  intros i j a b ia ib ea eb Hij Ha Hb Heq.
  destruct (made_from_linked f ev out created ptrList idx i a ia ea Hstages Ha)
    as (_ & oi & Hoi & Hia & _).
  destruct (made_from_linked f ev out created ptrList idx j b ib eb Hstages Hb)
    as (_ & oj & Hoj & Hib & _).
  destruct Ha as (Ha & _). destruct Hb as (Hb & _).
  pose proof (Hstable i j a b oi oj Hij Ha Hb Heq Hoi Hoj) as Hlt.
  destruct (fillLoop_structure f ev _ _ Hloop) as [Hptrs _].
  eapply (StronglySorted_lookup_lt lt ptrList oi oj); [|done..].
  rewrite Hptrs. apply selection_sorted.
Qed.

Lemma ranking_witness :
  (pt <$> outElectrons out_three) = [80%Q; 50%Q; 50%Q] ∧
  ∃ created ptrList idx,
    @fill_stages demo_externals demo_filler event_three out_three created ptrList idx ∧
    idx ≡ₚ seq 0 (length created).
Proof.
  assert (Hfill : @fill demo_externals demo_filler event_three = Ok out_three)
    by (vm_compute; reflexivity).
  split; [vm_compute; reflexivity|].
  destruct (@ranking demo_externals demo_filler event_three out_three Hfill)
    as (created & ptrList & idx & Hstages & Hperm & _).
  by exists created, ptrList, idx.
Defined.

(** ** Identity maps *)

Lemma made_from_cluster `{Externals} (f : ElectronsFiller) (ev : Event) (out : FillOutput)
    (iP : nat) (r : PElectron) (iEl : nat) (e : GsfElectron) :
  fill f ev = Ok out → made_from ev out iP r iEl e →
  bwdMap (scEleMap out) !! iP = Some (gsf_superCluster e).
Proof.
  intros (created & ptrList & idx & Hstages)%fill_Ok_inv Hmade.
  destruct (made_from_linked f ev out created ptrList idx _ _ _ _ Hstages Hmade)
    as (Hlink & _).
  apply (scEleMap_bwd f ev out created ptrList idx Hstages).
  destruct Hmade as (Hr & _). split; [by eapply lookup_lt_Some | eauto].
Qed.

(** C5, amended.  After a returned fill the candidate map is an exact
    bijection over the records.  The cluster map has, backward, exactly one
    entry per record, the supercluster of the candidate the record was made
    from, and every forward entry of it is the inverse of a backward one; it
    is an exact bijection when no two selected candidates share a
    supercluster. *)
Theorem identity_maps `{Externals} (f : ElectronsFiller) (ev : Event) (out : FillOutput) :
  fill f ev = Ok out →
  let n := length (outElectrons out) in
  exact_bijection n (eleEleMap out) ∧
  (∀ iP, iP < n → ∃ r iEl e, made_from ev out iP r iEl e ∧
                             bwdMap (scEleMap out) !! iP = Some (gsf_superCluster e)) ∧
  (∀ iP c, bwdMap (scEleMap out) !! iP = Some c → iP < n) ∧
  (∀ c iP, fwdMap (scEleMap out) !! c = Some iP → bwdMap (scEleMap out) !! iP = Some c) ∧
  (distinct_clusters f ev → exact_bijection n (scEleMap out)).
Proof.
  intros Hfill n.
  destruct (fill_Ok_inv f ev out Hfill) as (created & ptrList & idx & Hstages).
  pose proof (eleEleMap_bwd f ev out created ptrList idx Hstages) as Hele_bwd.
  pose proof (eleEleMap_fwd f ev out created ptrList idx Hstages) as Hele_fwd.
  pose proof (scEleMap_bwd f ev out created ptrList idx Hstages) as Hsc_bwd.
  pose proof (scEleMap_fwd_inv f ev out created ptrList idx Hstages) as Hsc_fwd.
  assert (Horigin : ∀ iP, iP < n → ∃ r iEl e, made_from ev out iP r iEl e).
  { intros iP HiP. destruct (lookup_lt_is_Some_2 (outElectrons out) iP HiP) as [r Hr].
    destruct (record_origin f ev out created ptrList idx Hstages iP r Hr) as (iEl & e & ?).
    by exists r, iEl, e. }
  split_and!.
  - unfold exact_bijection. split_and!.
    + intros iP HiP. destruct (Horigin iP HiP) as (r & iEl & e & Hmade).
      pose proof Hmade as (_ & Hbwd & _). exists iEl. split_and!; [done| |].
      * apply Hele_fwd. by apply Hele_bwd.
      * intros k' Hk'. apply Hele_fwd, Hele_bwd in Hk'. congruence.
    + intros k iP Hk. pose proof Hk as Hk'. apply Hele_fwd in Hk' as [HiP _].
      split; [done|]. by apply Hele_bwd, Hele_fwd.
    + intros iP k Hk. pose proof Hk as Hk'. apply Hele_bwd in Hk' as [HiP _].
      split; [done|]. by apply Hele_fwd, Hele_bwd.
  - intros iP HiP. destruct (Horigin iP HiP) as (r & iEl & e & Hmade).
    exists r, iEl, e. split; [done|]. by eapply made_from_cluster.
  - intros iP c Hc. by apply Hsc_bwd in Hc as [? _].
  - intros c iP Hc. by apply Hsc_bwd, Hsc_fwd.
  - intros Hdistinct.
    pose proof (scEleMap_fwd f ev out created ptrList idx Hstages) as Hsc_fwd'.
    unfold exact_bijection. split_and!.
    + intros iP HiP. destruct (Horigin iP HiP) as (r & iEl & e & Hmade).
      pose proof (made_from_cluster f ev out iP r iEl e Hfill Hmade) as Hbwd.
      exists (gsf_superCluster e). split_and!; [done| |].
      * apply Hsc_bwd in Hbwd as [_ Hlink]. by apply Hsc_fwd'.
      * intros k' Hk'. apply Hsc_fwd, Hsc_bwd in Hk'. congruence.
    + intros k iP Hk. pose proof Hk as Hk'. apply Hsc_fwd in Hk' as [HiP _].
      split; [done|]. by apply Hsc_bwd, Hsc_fwd.
    + intros iP k Hk. pose proof Hk as Hk'. apply Hsc_bwd in Hk' as [HiP Hlink].
      split; [done|]. by apply Hsc_fwd'.
Qed.

Lemma identity_maps_witness :
  exact_bijection 3 (eleEleMap out_three) ∧ exact_bijection 3 (scEleMap out_three).
Proof.
  assert (Hfill : @fill demo_externals demo_filler event_three = Ok out_three)
    by (vm_compute; reflexivity).
  assert (Hdistinct : distinct_clusters demo_filler event_three).
  { intros i j ei ej Hi Hj _ _.
    destruct i as [|[|[|i]]]; destruct j as [|[|[|j]]];
      simpl in Hi, Hj; simplify_eq; done. }
  destruct (@identity_maps demo_externals demo_filler event_three out_three Hfill)
    as (Hele & _ & _ & _ & Hsc).
  split; [exact Hele | exact (Hsc Hdistinct)].
Defined.

(** C5, as stated, fails on an event with two selected electrons on one
    supercluster: the cluster map keeps one forward entry for two records. *)
Lemma shared_cluster_not_bijection :
  ¬ @maps_are_bijections demo_externals demo_filler event_shared_cluster.
Proof.
  intros Hbij.
  assert (Hfill : @fill demo_externals demo_filler event_shared_cluster = Ok out_shared)
    by (vm_compute; reflexivity).
  destruct (Hbij out_shared Hfill) as [_ (Hrec & _)].
  destruct (Hrec 0) as (k & Hbwd & Hfwd & _); [vm_compute; lia|].
  assert (k = 3) as -> by (vm_compute in Hbwd; congruence).
  vm_compute in Hfwd. discriminate.
Qed.

(** ** Reference resolution *)

Lemma setRefsLoop_spec (scMap : gmap nat nat) (links : list (nat * nat))
    (outs : list PElectron) :
  NoDup links.*1 →
  match setRefsLoop scMap links outs with
  | Ok outs' =>
      length outs' = length outs ∧
      (∀ iP sc, (iP, sc) ∈ links →
         ∃ t, scMap !! sc = Some t ∧ outs' !! iP = set_superCluster t <$> outs !! iP) ∧
      (∀ iP, iP ∉ links.*1 → outs' !! iP = outs !! iP)
  | Throw ex =>
      ex = OutOfRange ∧ ∃ iP sc, (iP, sc) ∈ links ∧ scMap !! sc = None
  end.
Proof.
  revert outs. induction links as [|[iP sc] links IH]; intros outs Hnodup; simpl.
  - split_and!; [done | by intros ? ? ?%elem_of_nil | done].
  - apply NoDup_cons in Hnodup as [Hnotin Hnodup].
    destruct (scMap !! sc) as [t|] eqn:Ht.
    + specialize (IH (alter (set_superCluster t) iP outs) Hnodup).
      destruct (setRefsLoop _ _ _) as [outs'|ex].
      * destruct IH as (Hlen & Hin & Hout). split_and!.
        -- by rewrite Hlen, length_alter.
        -- intros iP' sc' [[= -> ->] | Hin']%elem_of_cons.
           ++ exists t. split; [done|].
              rewrite Hout by done. by rewrite list_lookup_alter_eq.
           ++ destruct (Hin _ _ Hin') as (t' & Ht' & Hlook). exists t'. split; [done|].
              rewrite Hlook. rewrite list_lookup_alter_ne; [done|].
              intros ->. apply Hnotin. apply list_elem_of_fmap. by exists (iP', sc').
        -- intros iP' [Hne Hnotin']%not_elem_of_cons.
           rewrite Hout by done. by rewrite list_lookup_alter_ne.
      * destruct IH as (-> & iP' & sc' & Hin' & Hnone). split; [done|].
        exists iP', sc'. split; [by right | done].
    + split; [done|]. exists iP, sc. split; [by left | done].
Qed.

(** The write of line 220 on a record: the reference is the new one, every
    other member is as before. *)
Lemma set_superCluster_members (t : nat) (r : PElectron) :
  superCluster (set_superCluster t r) = Some t ∧
  same_except_superCluster r (set_superCluster t r).
Proof. split; [done|]. unfold same_except_superCluster. by split_and!. Qed.

(** C6.  After a returned fill, [setRefs] either returns the output
    collection in which, at every position, the [superCluster] member of the
    record is the output-side record that the supercluster filler's map gives
    for the supercluster of the candidate the record was made from, and
    every other member is as [fill] left it; or it throws, and then the
    supercluster filler has no map at all or some record's supercluster has
    no entry in it.  It throws whenever a record's supercluster has no entry:
    the returning case gives an entry for each. *)
Theorem setRefs_resolves `{Externals} (f : ElectronsFiller) (ev : Event) (out : FillOutput)
    (objectMaps : gmap string ObjectMap) :
  fill f ev = Ok out →
  match setRefs out objectMaps with
  | Ok outs' =>
      ∃ scFiller, objectMaps !! "superClusters"%string = Some scFiller ∧
        length outs' = length (outElectrons out) ∧
        ∀ iP r, outElectrons out !! iP = Some r →
          ∃ iEl e t r', made_from ev out iP r iEl e ∧
                        fwdMap scFiller !! gsf_superCluster e = Some t ∧
                        outs' !! iP = Some r' ∧
                        superCluster r' = Some t ∧
                        same_except_superCluster r r'
  | Throw ex =>
      ex = OutOfRange ∧
      (objectMaps !! "superClusters"%string = None ∨
       ∃ scFiller iP r iEl e,
         objectMaps !! "superClusters"%string = Some scFiller ∧
         made_from ev out iP r iEl e ∧
         fwdMap scFiller !! gsf_superCluster e = None)
  end.
Proof.
  intros Hfill.
  destruct (fill_Ok_inv f ev out Hfill) as (created & ptrList & idx & Hstages).
  unfold setRefs.
  destruct (objectMaps !! "superClusters"%string) as [scFiller|]; [|by split; [|left]].
  pose proof (setRefsLoop_spec (fwdMap scFiller) (map_to_list (bwdMap (scEleMap out)))
                (outElectrons out) (NoDup_fst_map_to_list _)) as Hloop.
  destruct (setRefsLoop _ _ _) as [outs'|ex].
  - destruct Hloop as (Hlen & Hin & _).
    exists scFiller. split_and!; [done..|].
    intros iP r Hr.
    destruct (record_origin f ev out created ptrList idx Hstages iP r Hr)
      as (iEl & e & Hmade).
    pose proof (made_from_cluster f ev out iP r iEl e Hfill Hmade) as Hbwd.
    apply elem_of_map_to_list in Hbwd.
    destruct (Hin _ _ Hbwd) as (t & Ht & Hlook).
    destruct (set_superCluster_members t r) as [Hnew Hsame].
    exists iEl, e, t, (set_superCluster t r).
    split_and!; [done..| |done|done]. by rewrite Hlook, Hr.
  - destruct Hloop as (-> & iP & sc & Hin & Hnone). split; [done|]. right.
    apply elem_of_map_to_list in Hin.
    pose proof Hin as Hin'.
    apply (scEleMap_bwd f ev out created ptrList idx Hstages) in Hin' as [HiP _].
    destruct (lookup_lt_is_Some_2 (outElectrons out) iP HiP) as [r Hr].
    destruct (record_origin f ev out created ptrList idx Hstages iP r Hr)
      as (iEl & e & Hmade).
    pose proof (made_from_cluster f ev out iP r iEl e Hfill Hmade) as Hbwd.
    assert (sc = gsf_superCluster e) as -> by congruence.
    by exists scFiller, iP, r, iEl, e.
Qed.

Lemma setRefs_resolves_witness :
  (∃ outs' r', setRefs out_three demo_objectMaps = Ok outs' ∧
               outs' !! 0 = Some r' ∧ superCluster r' = Some 1 ∧
               superCluster (record_at out_three 0) = None ∧
               pt r' = 80%Q) ∧
  setRefs out_three ∅ = Throw OutOfRange.
Proof.
  assert (Hfill : @fill demo_externals demo_filler event_three = Ok out_three)
    by (vm_compute; reflexivity).
  assert (Hr : outElectrons out_three !! 0 = Some (record_at out_three 0))
    by (vm_compute; reflexivity).
  pose proof (@setRefs_resolves demo_externals demo_filler event_three out_three
                demo_objectMaps Hfill) as Hresolved.
  pose proof (@setRefs_resolves demo_externals demo_filler event_three out_three
                ∅ Hfill) as Hmissing.
  split.
  - destruct (setRefs out_three demo_objectMaps) as [outs'|ex] eqn:Hrefs.
    + destruct Hresolved as (scFiller & Hstore & _ & Hrecords).
      destruct (Hrecords 0 _ Hr)
        as (iEl & e & t & r' & (_ & Hbwd & He) & Ht & Hlook & Hnew & Hsame).
      exists outs', r'. split_and!; [reflexivity | exact Hlook | | reflexivity |].
      * rewrite Hnew. f_equal.
        vm_compute in Hbwd. injection Hbwd as <-.
        vm_compute in He. injection He as <-.
        vm_compute in Hstore. injection Hstore as <-.
        vm_compute in Ht. by injection Ht as <-.
      * destruct Hsame as (Hpt & _). rewrite Hpt. vm_compute. reflexivity.
    + vm_compute in Hrefs. discriminate Hrefs.
  - destruct (setRefs out_three ∅) as [outs'|ex] eqn:Hrefs.
    + destruct Hmissing as (scFiller & Hlook & _). rewrite lookup_empty in Hlook.
      discriminate Hlook.
    + by destruct Hmissing as (-> & _).
Defined.

(** The references after resolution on the three-electron event: the final
    order is the electrons on superclusters 4, 3 and 5, which the
    supercluster filler holds at positions 1, 0 and 2. *)
Example setRefs_three :
  superCluster <$> output_of_refs (setRefs out_three demo_objectMaps)
  = [Some 1; Some 0; Some 2].
Proof. vm_compute. reflexivity. Qed.

(** With the cuts left at their defaults an electron at pseudorapidity 11
    is dropped. *)
Example forward_electron_dropped :
  outElectrons (output_of (@fill demo_externals demo_filler event_forward)) = [] ∧
  @ElectronsFiller_new demo_externals demo_config = Ok demo_filler.
Proof. split; vm_compute; reflexivity. Qed.

(** Two electrons on supercluster 3: the backward cluster map has both
    records, the forward one a single entry. *)
Example shared_cluster_maps :
  map_to_list (bwdMap (scEleMap out_shared)) ≡ₚ [(0, 3); (1, 3)] ∧
  length (map_to_list (fwdMap (scEleMap out_shared))) = 1.
Proof. split; [vm_compute; apply Permutation_swap | vm_compute; reflexivity]. Qed.

(** The scenario of three candidates A (pt 50), B (pt 80) and C (pt 30, veto
    false): the output is B, A. *)
Example scenario_B_then_A :
  (pt <$> outElectrons out_scenario) = [80%Q; 50%Q] ∧
  map_to_list (bwdMap (eleEleMap out_scenario)) ≡ₚ [(0, 1); (1, 0)].
Proof. split; [vm_compute; reflexivity | vm_compute; apply Permutation_swap]. Qed.

(** * Further properties of the filler *)

(** ** Branch names *)

Lemma veto_name_inj (name a b : string) :
  String.append (String.append "!" name) a = String.append (String.append "!" name) b →
  a = b.
Proof. apply (inj (String.app _)). Qed.

(** X2.  [branchNames] keeps the branches already listed, in front, and
    appends only vetoes of members of this filler: the three generator-level
    members exactly when the filler runs on real data, and the trigger-match
    member exactly when trigger usage is off. *)
Theorem branchNames_vetoes (name : string) (isRealData_ : bool) (f : ElectronsFiller)
    (eventBranches : list string) :
  let veto_of member := String.append (String.append "!" name) member in
  ∃ added,
    branchNames name isRealData_ f eventBranches = eventBranches ++ added ∧
    (∀ b, b ∈ added → ∃ member, b = veto_of member) ∧
    (veto_of ".tauDecay" ∈ added ↔ isRealData_ = true) ∧
    (veto_of ".hadDecay" ∈ added ↔ isRealData_ = true) ∧
    (veto_of ".matchedGen_" ∈ added ↔ isRealData_ = true) ∧
    (veto_of ".matchHLT" ∈ added ↔ useTrigger_ f = false) ∧
    length added = (if isRealData_ then 3 else 0) + (if useTrigger_ f then 0 else 1).
Proof.
  intros veto_of. unfold branchNames.
  destruct isRealData_, (useTrigger_ f); simpl; rewrite <- ?app_assoc; simpl.
  - exists [veto_of ".tauDecay"; veto_of ".hadDecay"; veto_of ".matchedGen_"]%string.
    split_and!; try done.
    + intros b Hb. repeat (apply elem_of_cons in Hb as [-> | Hb]; [by eexists|]).
      by apply elem_of_nil in Hb.
    + split; [done|]. intros _. by left.
    + split; [done|]. intros _. right. by left.
    + split; [done|]. intros _. do 2 right. by left.
    + split; [|done]. intros Hin.
      repeat (apply elem_of_cons in Hin as [Heq | Hin];
              [apply (veto_name_inj name) in Heq; discriminate Heq|]).
      by apply elem_of_nil in Hin.
  - exists [veto_of ".tauDecay"; veto_of ".hadDecay"; veto_of ".matchedGen_";
            veto_of ".matchHLT"]%string.
    split_and!; try done.
    + intros b Hb. repeat (apply elem_of_cons in Hb as [-> | Hb]; [by eexists|]).
      by apply elem_of_nil in Hb.
    + split; [done|]. intros _. by left.
    + split; [done|]. intros _. right. by left.
    + split; [done|]. intros _. do 2 right. by left.
    + split; [done|]. intros _. do 3 right. by left.
  - exists []. rewrite app_nil_r.
    split_and!; try done; try (split; [by intros ?%elem_of_nil | discriminate]).
    by intros b ?%elem_of_nil.
  - exists [veto_of ".matchHLT"].
    split_and!; try done.
    + intros b [-> | Hb]%elem_of_cons; [by eexists | by apply elem_of_nil in Hb].
    + split; [|discriminate]. intros [Heq | Hin]%elem_of_cons.
      * apply (veto_name_inj name) in Heq. discriminate Heq.
      * by apply elem_of_nil in Hin.
    + split; [|discriminate]. intros [Heq | Hin]%elem_of_cons.
      * apply (veto_name_inj name) in Heq. discriminate Heq.
      * by apply elem_of_nil in Hin.
    + split; [|discriminate]. intros [Heq | Hin]%elem_of_cons.
      * apply (veto_name_inj name) in Heq. discriminate Heq.
      * by apply elem_of_nil in Hin.
    + split; [done|]. intros _. by left.
Qed.

(** ** Members of the records *)

Lemma made_from_fillElectron `{Externals} (f : ElectronsFiller) (ev : Event)
    (out : FillOutput) (iP : nat) (r : PElectron) (iEl : nat) (e : GsfElectron) :
  fill f ev = Ok out → made_from ev out iP r iEl e →
  fillElectron f ev (hltObjects f ev) iEl e true = Ok r.
Proof.
  intros (created & ptrList & idx & Hstages)%fill_Ok_inv Hmade.
  by destruct (made_from_filled f ev out created ptrList idx Hstages _ _ _ _ Hmade).
Qed.

(** X3.  On every record the loose, medium and tight flags are the entries of
    the identification maps for the candidate the record was made from, and
    the charge, the two shower-shape widths and the hadronic-over-em ratio are
    those of that candidate. *)
Theorem copied_members `{Externals} (f : ElectronsFiller) (ev : Event) (out : FillOutput)
    (iP : nat) (r : PElectron) (iEl : nat) (e : GsfElectron) :
  fill f ev = Ok out → made_from ev out iP r iEl e →
  loose r = looseId ev iEl ∧ medium r = mediumId ev iEl ∧ tight r = tightId ev iEl ∧
  q r = gsf_charge e ∧
  sieie r = full5x5_sigmaIetaIeta e ∧
  sipip r = full5x5_sigmaIphiIphi e ∧
  hOverE r = hadronicOverEm e.
Proof.
  intros Hfill Hmade.
  destruct (made_from_members f ev out iP r iEl e Hfill Hmade)
    as (_ & ecal & hcal & _ & Hg).
  split_and!; by rewrite Hg by (by split_and!).
Qed.

Lemma copied_members_witness :
  q (record_at out_one 0) = (-1)%Z ∧ loose (record_at out_one 0) = false.
Proof.
  assert (Hfill : @fill demo_externals demo_filler event_one = Ok out_one)
    by (vm_compute; reflexivity).
  assert (Hmade : made_from event_one out_one 0 (record_at out_one 0) 0 (patElectron 50 1 3))
    by (split_and!; vm_compute; reflexivity).
  destruct (@copied_members demo_externals demo_filler event_one out_one 0
              (record_at out_one 0) 0 (patElectron 50 1 3) Hfill Hmade)
    as (Hloose & _ & _ & Hq & _).
  split; [by rewrite Hq | by rewrite Hloose].
Defined.

(** X4.  On simulated events both decay flags of every record are false; on
    real data [fill] does not write them and they are as [create_back] left
    them. *)
Theorem decay_flags `{Externals} (f : ElectronsFiller) (ev : Event) (out : FillOutput)
    (iP : nat) (r : PElectron) :
  fill f ev = Ok out → outElectrons out !! iP = Some r →
  if isRealData ev
  then tauDecay r = tauDecay create_back ∧ hadDecay r = hadDecay create_back
  else tauDecay r = false ∧ hadDecay r = false.
Proof.
  intros Hfill Hr.
  destruct (fill_Ok_inv f ev out Hfill) as (created & ptrList & idx & Hstages).
  destruct (record_origin f ev out created ptrList idx Hstages iP r Hr)
    as (iEl & e & Hmade).
  pose proof (made_from_fillElectron f ev out iP r iEl e Hfill Hmade) as Hfilled.
  apply fillElectron_Ok in Hfilled as (ecal & hcal & _ & ->). cbv zeta.
  destruct (isRealData ev); simpl; [|done].
  split.
  - by rewrite (triggerMatch_plain f tauDecay), (photonLoop_plain f ev tauDecay).
  - by rewrite (triggerMatch_plain f hadDecay), (photonLoop_plain f ev hadDecay).
Qed.

Lemma decay_flags_witness :
  tauDecay (record_at out_one 0) = false ∧ hadDecay (record_at out_one 0) = false.
Proof.
  assert (Hfill : @fill demo_externals demo_filler event_one = Ok out_one)
    by (vm_compute; reflexivity).
  assert (Hr : outElectrons out_one !! 0 = Some (record_at out_one 0))
    by (vm_compute; reflexivity).
  exact (@decay_flags demo_externals demo_filler event_one out_one 0
           (record_at out_one 0) Hfill Hr).
Defined.

(** X5.  The three photon-isolation members of a record are written together
    or not at all.  When no photon of the event sits on the candidate's
    supercluster they are as [create_back] left them.  When some photon does,
    they are the entries of the three photon value maps at index 0, each
    minus its photon effective area at the absolute supercluster
    pseudorapidity times the pileup density. *)
Theorem photon_members `{Externals} (f : ElectronsFiller) (ev : Event) (out : FillOutput)
    (iP : nat) (r : PElectron) (iEl : nat) (e : GsfElectron) :
  fill f ev = Ok out → made_from ev out iP r iEl e →
  let absEta := Qabs (superClusterEta ev (gsf_superCluster e)) in
  if photon_on ev (gsf_superCluster e)
  then chisoPh r = corrected (phCHIso ev 0) (phCHIsoEA_ f) absEta (rho ev) ∧
       nhisoPh r = corrected (phNHIso ev 0) (phNHIsoEA_ f) absEta (rho ev) ∧
       phisoPh r = corrected (phPhIso ev 0) (phPhIsoEA_ f) absEta (rho ev)
  else chisoPh r = chisoPh create_back ∧
       nhisoPh r = nhisoPh create_back ∧
       phisoPh r = phisoPh create_back.
Proof.
  intros Hfill Hmade absEta.
  pose proof (made_from_fillElectron f ev out iP r iEl e Hfill Hmade) as Hfilled.
  apply fillElectron_Ok in Hfilled as (ecal & hcal & _ & ->). cbv zeta.
  assert (Hdec : ∀ {A} (g : PElectron → A) o,
            (∀ tau had o', g (set_decays tau had o') = g o') →
            g (if negb (isRealData ev) then set_decays false false o else o) = g o).
  { intros A g o Hg. by destruct (negb (isRealData ev)). }
  rewrite (Hdec _ chisoPh), (Hdec _ nhisoPh), (Hdec _ phisoPh) by done.
  rewrite (triggerMatch_plain f chisoPh), (triggerMatch_plain f nhisoPh),
    (triggerMatch_plain f phisoPh) by done.
  rewrite photonLoop_index. unfold photon_on.
  by destruct (existsb _ (photons ev)).
Qed.

Lemma photon_members_witness :
  chisoPh (record_at out_second_photon 0)
    = corrected (phCHIso event_second_photon 0) (flat_area 0) (Qabs 1) 2 ∧
  chisoPh (record_at out_one 0) = 0%Q.
Proof.
  assert (Hfill : @fill demo_externals demo_filler event_second_photon
                  = Ok out_second_photon) by (vm_compute; reflexivity).
  assert (Hmade : made_from event_second_photon out_second_photon 0
                    (record_at out_second_photon 0) 0 (patElectron 50 1 3))
    by (split_and!; vm_compute; reflexivity).
  assert (Hfill1 : @fill demo_externals demo_filler event_one = Ok out_one)
    by (vm_compute; reflexivity).
  assert (Hmade1 : made_from event_one out_one 0 (record_at out_one 0) 0
                     (patElectron 50 1 3))
    by (split_and!; vm_compute; reflexivity).
  split.
  - exact (proj1 (@photon_members demo_externals demo_filler event_second_photon
                    out_second_photon 0 (record_at out_second_photon 0) 0
                    (patElectron 50 1 3) Hfill Hmade)).
  - exact (proj1 (@photon_members demo_externals demo_filler event_one
                    out_one 0 (record_at out_one 0) 0
                    (patElectron 50 1 3) Hfill1 Hmade1)).
Defined.

(** X6.  [fill] never clears a trigger-match flag and never writes one past
    the filter categories: on every record a flag is true or as
    [create_back] left it, and the flags at index [nElectronHLTObjects] and
    beyond are as [create_back] left them. *)
Theorem match_flags_only_raised `{Externals} (f : ElectronsFiller) (ev : Event)
    (out : FillOutput) (iP : nat) (r : PElectron) (iF : nat) :
  fill f ev = Ok out → outElectrons out !! iP = Some r →
  (matchHLT r iF = true ∨ matchHLT r iF = matchHLT create_back iF) ∧
  (nElectronHLTObjects ≤ iF → matchHLT r iF = matchHLT create_back iF).
Proof.
  intros Hfill Hr.
  destruct (fill_Ok_inv f ev out Hfill) as (created & ptrList & idx & Hstages).
  destruct (record_origin f ev out created ptrList idx Hstages iP r Hr)
    as (iEl & e & Hmade).
  pose proof (made_from_fillElectron f ev out iP r iEl e Hfill Hmade) as Hfilled.
  rewrite (fillElectron_matchHLT f ev _ _ _ _ _ iF Hfilled). split.
  - destruct (_ && _ && _); auto.
  - intros Hge. rewrite (bool_decide_eq_false_2 (iF < nElectronHLTObjects)) by lia.
    by rewrite andb_false_r.
Qed.

Lemma match_flags_only_raised_witness :
  matchHLT (record_at out_trigger 0) 2 = false.
Proof.
  assert (Hfill : @fill demo_externals demo_filler_trigger event_trigger = Ok out_trigger)
    by (vm_compute; reflexivity).
  assert (Hr : outElectrons out_trigger !! 0 = Some (record_at out_trigger 0))
    by (vm_compute; reflexivity).
  destruct (@match_flags_only_raised demo_externals demo_filler_trigger event_trigger
              out_trigger 0 (record_at out_trigger 0) 2 Hfill Hr) as [_ Hbeyond].
  apply Hbeyond. simpl. lia.
Defined.

(** ** When [fill] returns and how much *)

(** X7.  [fill] throws exactly when some selected candidate is not a
    pat::Electron while one of the two side-map tokens is uninitialized.  The
    exception is then a configuration error, the ECAL one when the ECAL token
    is uninitialized and the HCAL one otherwise; [fill] never runs past the
    end of a vector. *)
Theorem fill_throws_iff `{Externals} (f : ElectronsFiller) (ev : Event) :
  ((∃ ex, fill f ev = Throw ex) ↔
   ∃ iEl e, inElectrons ev !! iEl = Some e ∧ selected f ev iEl e ∧ gsf_pat e = None ∧
            (ecalIsoToken_ f = false ∨ hcalIsoToken_ f = false)) ∧
  (∀ ex, fill f ev = Throw ex →
     ex = Configuration (if ecalIsoToken_ f then "HCAL PF cluster iso missing"
                         else "ECAL PF cluster iso missing")).
Proof.
  split; [split|].
  - intros (ex & Hthrow).
    destruct (fill_Throw_inv f ev ex Hthrow) as (iEl & e & He & Hsel & Hfilled).
    apply fillElectron_Throw, caloIso_Throw in Hfilled as [Hpat Htok].
    exists iEl, e. split_and!; [done..|].
    destruct Htok as [[? _] | (_ & ? & _)]; auto.
  - intros (iEl & e & He & Hsel & Hpat & Htok).
    destruct (fill f ev) as [out|ex] eqn:Hfill; [|by exists ex].
    destruct (fill_Ok_inv f ev out Hfill) as (created & ptrList & idx & Hstages).
    destruct (selected_yields f ev out created ptrList idx Hstages _ _ He Hsel)
      as (iP & r & Hmade).
    destruct (made_from_members f ev out iP r iEl e Hfill Hmade)
      as (_ & ecal & hcal & Hcalo & _).
    apply caloIso_Ok in Hcalo as (_ & _ & Hinit).
    destruct (Hinit Hpat) as [Hecal Hhcal]. destruct Htok; congruence.
  - intros ex Hthrow.
    destruct (fill_Throw_inv f ev ex Hthrow) as (iEl & e & _ & _ & Hfilled).
    apply fillElectron_Throw, caloIso_Throw in Hfilled as [_ Htok].
    by destruct Htok as [[-> ->] | (-> & _ & ->)].
Qed.

(** X8.  A returned output has exactly one record per selected candidate, so
    never more records than the event has candidates.  When no candidate is
    selected, and in particular on an event without candidates, [fill]
    returns an empty collection and leaves both maps empty, whatever the
    configuration of the side maps. *)
Theorem record_count `{Externals} (f : ElectronsFiller) (ev : Event) :
  (∀ out, fill f ev = Ok out →
     length (outElectrons out) = length (selection f ev 0 (inElectrons ev)) ∧
     length (outElectrons out) ≤ length (inElectrons ev)) ∧
  ((∀ iEl e, inElectrons ev !! iEl = Some e → ¬ selected f ev iEl e) →
   fill f ev = Ok {| outElectrons := [];
                     eleEleMap := ObjectMap_empty;
                     scEleMap := ObjectMap_empty |}).
Proof.
  assert (Hcount : ∀ out, fill f ev = Ok out →
            length (outElectrons out) = length (selection f ev 0 (inElectrons ev))).
  { intros out (created & ptrList & idx & Hloop & Hsort & _)%fill_Ok_inv.
    destruct (fillLoop_structure f ev _ _ Hloop) as [<- Hall].
    destruct (sort_spec _ _ _ Hsort) as (_ & _ & -> & _).
    symmetry. by eapply Forall2_length. }
  split.
  - intros out Hfill. split; [by apply Hcount|]. rewrite (Hcount out Hfill).
    pose proof (selection_sorted f ev (inElectrons ev) 0) as Hsorted.
    apply StronglySorted_lt_NoDup in Hsorted.
    assert (Hle : length (selection f ev 0 (inElectrons ev))
                  ≤ length (seq 0 (length (inElectrons ev)))).
    { apply submseteq_length, NoDup_submseteq; [done|].
      intros iEl (e & He & _)%(selection_lookup f ev (inElectrons ev) []).
      apply elem_of_seq. apply lookup_lt_Some in He. simpl in *. lia. }
    by rewrite length_seq in Hle.
  - intros Hnone.
    assert (Hsel : selection f ev 0 (inElectrons ev) = []).
    { destruct (selection f ev 0 (inElectrons ev)) as [|iEl l] eqn:Hl; [done|].
      assert (Hin : iEl ∈ selection f ev (length (@nil GsfElectron)) (inElectrons ev))
        by (simpl; rewrite Hl; by left).
      apply selection_lookup in Hin as (e & He & _ & Hsel).
      by destruct (Hnone iEl e He Hsel). }
    destruct (fillLoop f ev (hltObjects f ev) 0 (inElectrons ev) [] [])
      as [[created ptrList]|ex] eqn:Hloop.
    + destruct (fillLoop_structure f ev _ _ Hloop) as [Hptrs Hall].
      rewrite Hsel in Hptrs. subst ptrList. apply Forall2_nil_inv_l in Hall as ->.
      unfold fill. rewrite Hloop. reflexivity.
    + destruct (fillLoop_Throw f ev _ (inElectrons ev) [] [] [] ex eq_refl Hloop)
        as (iEl & e & He & Hsel' & _).
      by destruct (Hnone iEl e He Hsel').
Qed.

Lemma record_count_witness :
  @fill demo_externals demo_filler event_forward
  = Ok {| outElectrons := []; eleEleMap := ObjectMap_empty; scEleMap := ObjectMap_empty |}.
Proof.
  apply (@record_count demo_externals demo_filler event_forward).
  intros iEl e He (_ & Heta & _).
  destruct iEl as [|iEl]; simpl in He; [|by rewrite lookup_nil in He].
  injection He as <-. vm_compute in Heta. by apply Heta.
Defined.

(** ** The domains of the maps *)

Lemma insert_all_is_Some (kvs : list (nat * nat)) (g : gmap nat nat) (k : nat) :
  k ∈ kvs.*1 → is_Some (insert_all kvs g !! k).
Proof.
  revert g. induction kvs as [|[k0 v0] kvs IH]; intros g; simpl.
  - by intros ?%elem_of_nil.
  - intros Hin. destruct (decide (k ∈ kvs.*1)) as [Hrest|Hrest]; [by apply IH|].
    apply elem_of_cons in Hin as [-> | Hin]; [|done].
    rewrite insert_all_lookup_notin by done. rewrite lookup_insert_eq. eauto.
Qed.

Lemma scEleMap_fwd_is_Some `{Externals} (f : ElectronsFiller) (ev : Event)
    (out : FillOutput) (created : list PElectron) (ptrList idx : list nat)
    (iP ptr c : nat) :
  fill_stages f ev out created ptrList idx →
  iP < length (outElectrons out) → linked ev ptrList idx iP ptr c →
  is_Some (fwdMap (scEleMap out) !! c).
Proof.
  intros (Hloop & Hsort & Hmap) HiP Hlink.
  apply mapLoop_Ok in Hmap as (links & Hfst & Hall & Hele & Hsc).
  rewrite Hsc, fwdMap_add_links. apply insert_all_is_Some.
  rewrite <- list_fmap_compose. apply list_elem_of_fmap.
  exists (iP, (ptr, c)). split; [done|]. by eapply links_linked.
Qed.

(** X9.  After a returned fill the candidate map has a forward entry exactly
    for the selected candidates, and looking a candidate up gives the
    position of the record made from it.  The cluster map has a forward
    entry exactly for the superclusters of the selected candidates, also when
    several candidates share one. *)
Theorem map_domains `{Externals} (f : ElectronsFiller) (ev : Event) (out : FillOutput) :
  fill f ev = Ok out →
  (∀ iEl, is_Some (fwdMap (eleEleMap out) !! iEl) ↔
          ∃ e, inElectrons ev !! iEl = Some e ∧ selected f ev iEl e) ∧
  (∀ iEl iP, fwdMap (eleEleMap out) !! iEl = Some iP →
             ∃ r e, made_from ev out iP r iEl e) ∧
  (∀ c, is_Some (fwdMap (scEleMap out) !! c) ↔
        ∃ iEl e, inElectrons ev !! iEl = Some e ∧ selected f ev iEl e ∧
                 gsf_superCluster e = c).
Proof.
  intros Hfill.
  destruct (fill_Ok_inv f ev out Hfill) as (created & ptrList & idx & Hstages).
  pose proof Hstages as (Hloop & Hsort & _).
  destruct (fillLoop_structure f ev _ _ Hloop) as [Hptrs _].
  pose proof (eleEleMap_fwd f ev out created ptrList idx Hstages) as Hfwd.
  pose proof (eleEleMap_bwd f ev out created ptrList idx Hstages) as Hbwd.
  assert (Hback : ∀ iEl iP, fwdMap (eleEleMap out) !! iEl = Some iP →
            ∃ r e, made_from ev out iP r iEl e).
  { intros iEl iP Hlook. pose proof Hlook as Hlook'.
    apply Hfwd in Hlook' as [HiP (sc & Hlink)].
    destruct (lookup_lt_is_Some_2 (outElectrons out) iP HiP) as [r Hr].
    destruct (linked_selected f ev _ _ _ _ _ Hptrs Hlink) as (e & He & _).
    exists r, e. split_and!; [done| |done]. by apply Hbwd, Hfwd. }
  split_and!.
  - intros iEl. split.
    + intros [iP Hlook]. apply Hfwd in Hlook as [_ (sc & Hlink)].
      destruct (linked_selected f ev _ _ _ _ _ Hptrs Hlink) as (e & He & Hsel & _).
      by exists e.
    + intros (e & He & Hsel).
      destruct (selected_yields f ev out created ptrList idx Hstages _ _ He Hsel)
        as (iP & r & _ & Hlook & _).
      exists iP. by apply Hfwd, Hbwd.
  - done.
  - intros c. split.
    + intros [iP Hlook].
      apply (scEleMap_fwd_inv f ev out created ptrList idx Hstages) in Hlook
        as [_ (ptr & Hlink)].
      destruct (linked_selected f ev _ _ _ _ _ Hptrs Hlink) as (e & He & Hsel & ->).
      by exists ptr, e.
    + intros (iEl & e & He & Hsel & <-).
      destruct (selected_yields f ev out created ptrList idx Hstages _ _ He Hsel)
        as (iP & r & Hmade).
      destruct (made_from_linked f ev out created ptrList idx _ _ _ _ Hstages Hmade)
        as (Hlink & _).
      destruct Hmade as (Hr & _).
      eapply scEleMap_fwd_is_Some; [done | by eapply lookup_lt_Some | done].
Qed.

Lemma map_domains_witness :
  is_Some (fwdMap (eleEleMap out_shared) !! 1) ∧
  is_Some (fwdMap (scEleMap out_shared) !! 3) ∧
  fwdMap (scEleMap out_shared) !! 4 = None.
Proof.
  assert (Hfill : @fill demo_externals demo_filler event_shared_cluster = Ok out_shared)
    by (vm_compute; reflexivity).
  destruct (@map_domains demo_externals demo_filler event_shared_cluster out_shared Hfill)
    as (Hele & _ & Hsc).
  assert (Hsel : selected demo_filler event_shared_cluster 1 (patElectron 40 1 3))
    by (apply selectedb_spec; vm_compute; reflexivity).
  split_and!.
  - apply Hele. by exists (patElectron 40 1 3).
  - apply Hsc. by exists 1, (patElectron 40 1 3).
  - apply eq_None_not_Some. intros (iEl & e & He & _ & Hc)%Hsc.
    destruct iEl as [|[|iEl]]; simpl in He; simplify_eq; discriminate Hc.
Defined.

(** ** Trigger objects without trigger usage *)

Section OtherTriggerObjects.
Context `{Externals}.
Variable f : ElectronsFiller.
Variable ev : Event.
Variable objs : list TriggerObject.

Lemma photonLoop_other_objects (scRef : nat) (scEta : Q) (iPh : nat)
    (phs : list Photon) (out : PElectron) :
  photonLoop f (with_triggerObjects objs ev) scRef scEta iPh phs out
  = photonLoop f ev scRef scEta iPh phs out.
Proof.
  revert out. induction phs as [|photon rest IH]; intros out; simpl; [done|].
  by rewrite IH.
Qed.

Lemma fillElectron_other_objects (hlt : nat → list TriggerObject) (iEl : nat)
    (e : GsfElectron) (v : bool) :
  fillElectron f (with_triggerObjects objs ev) hlt iEl e v = fillElectron f ev hlt iEl e v.
Proof.
  unfold fillElectron.
  change (caloIso f (with_triggerObjects objs ev)) with (caloIso f ev).
  destruct (caloIso f ev iEl e _) as [[ecal hcal]|ex]; simpl; [|done].
  by rewrite photonLoop_other_objects.
Qed.

Lemma fillLoop_other_objects (hlt : nat → list TriggerObject) (iEl : nat)
    (els : list GsfElectron) (outs : list PElectron) (ptrs : list nat) :
  fillLoop f (with_triggerObjects objs ev) hlt iEl els outs ptrs
  = fillLoop f ev hlt iEl els outs ptrs.
Proof.
  revert iEl outs ptrs. induction els as [|e rest IH]; intros iEl outs ptrs; [done|].
  rewrite !fillLoop_cons, fillElectron_other_objects.
  change (selectedb f (with_triggerObjects objs ev) iEl e) with (selectedb f ev iEl e).
  destruct (selectedb f ev iEl e); [|apply IH].
  destruct (fillElectron f ev hlt iEl e true) as [r|ex]; simpl; [apply IH | done].
Qed.

Lemma mapLoop_other_objects (ptrList idx iPs : list nat) (m1 m2 : ObjectMap) :
  mapLoop (with_triggerObjects objs ev) ptrList idx iPs m1 m2
  = mapLoop ev ptrList idx iPs m1 m2.
Proof.
  revert m1 m2. induction iPs as [|iP rest IH]; intros m1 m2; simpl; [done|].
  destruct (vec_at idx iP) as [i|]; simpl; [|done].
  destruct (vec_at ptrList i) as [ptr|]; simpl; [|done].
  destruct (vec_at (inElectrons ev) ptr) as [e|]; simpl; [apply IH | done].
Qed.

End OtherTriggerObjects.

(** X10.  With trigger usage off, [fill] does not look at the trigger
    objects: replacing the trigger-object collection of the event by any
    other leaves the result of [fill] unchanged, exception included. *)
Theorem fill_ignores_trigger_objects `{Externals} (f : ElectronsFiller) (ev : Event)
    (objs : list TriggerObject) :
  useTrigger_ f = false →
  fill f (with_triggerObjects objs ev) = fill f ev.
Proof.
  intros Hoff. unfold fill.
  assert (Hhlt : hltObjects f (with_triggerObjects objs ev) = hltObjects f ev).
  { unfold hltObjects. by rewrite Hoff. }
  rewrite Hhlt.
  change (inElectrons (with_triggerObjects objs ev)) with (inElectrons ev).
  rewrite fillLoop_other_objects.
  destruct (fillLoop f ev _ 0 (inElectrons ev) [] []) as [[created ptrList]|ex];
    simpl; [|done].
  destruct (sort ptGreater created) as [sorted idx].
  by rewrite mapLoop_other_objects.
Qed.

Lemma fill_ignores_trigger_objects_witness :
  @fill demo_externals demo_filler
    (with_triggerObjects (triggerObjects event_trigger) event_one)
  = Ok out_one.
Proof.
  rewrite (@fill_ignores_trigger_objects demo_externals demo_filler event_one
             (triggerObjects event_trigger) eq_refl).
  vm_compute. reflexivity.
Defined.

(** ** More on reference resolution *)

(** X11.  [setRefs] on any output collection and maps, also ones not produced
    by [fill].  When it returns, the collection has kept its length, a record
    without backward link in the cluster map is unchanged, and a record with
    one has as its [superCluster] member the entry of the supercluster
    filler's map for the linked supercluster and every other member as
    before.  When it throws,
    the exception is the out-of-range one, and the store has no superClusters
    entry or some linked supercluster has no entry in that map. *)
Theorem setRefs_contract (out : FillOutput) (objectMaps : gmap string ObjectMap) :
  match setRefs out objectMaps with
  | Ok outs' =>
      ∃ scFiller, objectMaps !! "superClusters"%string = Some scFiller ∧
        length outs' = length (outElectrons out) ∧
        (∀ iP, bwdMap (scEleMap out) !! iP = None →
               outs' !! iP = outElectrons out !! iP) ∧
        (∀ iP sc, bwdMap (scEleMap out) !! iP = Some sc →
           ∃ t, fwdMap scFiller !! sc = Some t ∧
                outs' !! iP = set_superCluster t <$> outElectrons out !! iP ∧
                ∀ r', outs' !! iP = Some r' →
                      superCluster r' = Some t ∧
                      ∃ r, outElectrons out !! iP = Some r ∧
                           same_except_superCluster r r')
  | Throw ex =>
      ex = OutOfRange ∧
      (objectMaps !! "superClusters"%string = None ∨
       ∃ scFiller iP sc,
         objectMaps !! "superClusters"%string = Some scFiller ∧
         bwdMap (scEleMap out) !! iP = Some sc ∧ fwdMap scFiller !! sc = None)
  end.
Proof.
  unfold setRefs.
  destruct (objectMaps !! "superClusters"%string) as [scFiller|]; [|by split; [|left]].
  pose proof (setRefsLoop_spec (fwdMap scFiller) (map_to_list (bwdMap (scEleMap out)))
                (outElectrons out) (NoDup_fst_map_to_list _)) as Hloop.
  destruct (setRefsLoop _ _ _) as [outs'|ex].
  - destruct Hloop as (Hlen & Hin & Hout). exists scFiller. split_and!; [done..| |].
    + intros iP Hnone. apply Hout.
      intros ([iP' sc] & -> & Hl%elem_of_map_to_list)%list_elem_of_fmap.
      simpl in Hnone. congruence.
    + intros iP sc Hsc.
      destruct (Hin iP sc) as (t & Ht & Hlook); [by apply elem_of_map_to_list|].
      exists t. split_and!; [done..|].
      intros r' Hr'. rewrite Hlook in Hr'.
      destruct (outElectrons out !! iP) as [r|]; [|discriminate].
      injection Hr' as <-.
      destruct (set_superCluster_members t r) as [Hnew Hsame].
      split; [done|]. by exists r.
  - destruct Hloop as (-> & iP & sc & Hin%elem_of_map_to_list & Hnone).
    split; [done|]. right. by exists scFiller, iP, sc.
Qed.

Lemma setRefs_contract_witness :
  ∃ outs' r', setRefs out_shared demo_objectMaps = Ok outs' ∧
              outs' !! 1 = Some r' ∧ superCluster r' = Some 0 ∧ pt r' = 40%Q.
Proof.
  pose proof (setRefs_contract out_shared demo_objectMaps) as Hcontract.
  destruct (setRefs out_shared demo_objectMaps) as [outs'|ex] eqn:Hrefs.
  - destruct Hcontract as (scFiller & Hstore & Hlen & _ & Hlinked).
    destruct (Hlinked 1 3 ltac:(vm_compute; reflexivity)) as (t & Ht & Hlook & Hmember).
    assert (Hr' : is_Some (outs' !! 1)).
    { apply lookup_lt_is_Some_2. rewrite Hlen. vm_compute. lia. }
    destruct Hr' as [r' Hr']. destruct (Hmember r' Hr') as (Hnew & r & Hr & Hsame).
    exists outs', r'. split_and!; [reflexivity | exact Hr' | |].
    + rewrite Hnew. f_equal.
      vm_compute in Hstore. injection Hstore as <-.
      vm_compute in Ht. by injection Ht as <-.
    + destruct Hsame as (Hpt & _). rewrite Hpt.
      vm_compute in Hr. injection Hr as <-. vm_compute. reflexivity.
  - vm_compute in Hrefs. discriminate Hrefs.
Defined.

(** X12.  Resolving the references a second time changes nothing: when
    [setRefs] returns a collection, [setRefs] on that collection with the same
    maps returns it again. *)
Theorem setRefs_idempotent (out : FillOutput) (objectMaps : gmap string ObjectMap)
    (outs' : list PElectron) :
  setRefs out objectMaps = Ok outs' →
  setRefs (with_outElectrons outs' out) objectMaps = Ok outs'.
Proof.
  unfold setRefs. simpl.
  destruct (objectMaps !! "superClusters"%string) as [scFiller|]; [|discriminate].
  set (links := map_to_list (bwdMap (scEleMap out))).
  assert (Hnodup : NoDup links.*1) by apply NoDup_fst_map_to_list.
  pose proof (setRefsLoop_spec (fwdMap scFiller) links (outElectrons out) Hnodup) as Hfirst.
  pose proof (setRefsLoop_spec (fwdMap scFiller) links outs' Hnodup) as Hsecond.
  intros Hrun. rewrite Hrun in Hfirst. destruct Hfirst as (Hlen & Hin & Hout).
  destruct (setRefsLoop (fwdMap scFiller) links outs') as [outs''|ex].
  - destruct Hsecond as (Hlen' & Hin' & Hout'). f_equal.
    apply list_eq. intros iP.
    destruct (decide (iP ∈ links.*1)) as [Hlinked|Hfree]; [|by apply Hout'].
    apply list_elem_of_fmap in Hlinked as ([iP' sc] & -> & Hl). simpl.
    destruct (Hin _ _ Hl) as (t & Ht & Hlook).
    destruct (Hin' _ _ Hl) as (t' & Ht' & Hlook').
    assert (t' = t) as -> by congruence.
    rewrite Hlook', Hlook. by destruct (outElectrons out !! iP').
  - destruct Hsecond as (_ & iP & sc & Hl & Hnone).
    destruct (Hin _ _ Hl) as (t & Ht & _). congruence.
Qed.

Lemma setRefs_idempotent_witness :
  setRefs (with_outElectrons (output_of_refs (setRefs out_three demo_objectMaps)) out_three)
    demo_objectMaps
  = Ok (output_of_refs (setRefs out_three demo_objectMaps)).
Proof.
  apply setRefs_idempotent. vm_compute. reflexivity.
Defined.

(** X13.  After a returned fill, [setRefs] returns if and only if the store
    has a superClusters entry whose forward map has an entry for the
    supercluster of every selected candidate of the event. *)
Theorem setRefs_returns_iff `{Externals} (f : ElectronsFiller) (ev : Event)
    (out : FillOutput) (objectMaps : gmap string ObjectMap) :
  fill f ev = Ok out →
  (∃ outs', setRefs out objectMaps = Ok outs') ↔
  ∃ scFiller, objectMaps !! "superClusters"%string = Some scFiller ∧
    ∀ iEl e, inElectrons ev !! iEl = Some e → selected f ev iEl e →
             is_Some (fwdMap scFiller !! gsf_superCluster e).
Proof.
  intros Hfill.
  destruct (fill_Ok_inv f ev out Hfill) as (created & ptrList & idx & Hstages).
  pose proof Hstages as (Hloop & _).
  destruct (fillLoop_structure f ev _ _ Hloop) as [Hptrs _].
  unfold setRefs.
  destruct (objectMaps !! "superClusters"%string) as [scFiller|].
  - pose proof (setRefsLoop_spec (fwdMap scFiller) (map_to_list (bwdMap (scEleMap out)))
                  (outElectrons out) (NoDup_fst_map_to_list _)) as Hspec.
    split.
    + intros (outs' & Hrun). rewrite Hrun in Hspec. destruct Hspec as (_ & Hin & _).
      exists scFiller. split; [done|]. intros iEl e He Hsel.
      destruct (selected_yields f ev out created ptrList idx Hstages _ _ He Hsel)
        as (iP & r & Hmade).
      pose proof (made_from_cluster f ev out iP r iEl e Hfill Hmade) as Hbwd.
      apply elem_of_map_to_list in Hbwd.
      destruct (Hin _ _ Hbwd) as (t & Ht & _). eauto.
    + intros (scFiller' & [= <-] & Hall).
      destruct (setRefsLoop _ _ _) as [outs'|ex]; [by exists outs'|].
      destruct Hspec as (_ & iP & sc & Hl%elem_of_map_to_list & Hnone).
      apply (scEleMap_bwd f ev out created ptrList idx Hstages) in Hl
        as [_ (ptr & Hlink)].
      destruct (linked_selected f ev _ _ _ _ _ Hptrs Hlink) as (e & He & Hsel & ->).
      destruct (Hall ptr e He Hsel) as [t Ht]. congruence.
  - split; [by intros (outs' & [=]) | by intros (scFiller & [=] & _)].
Qed.

Lemma setRefs_returns_iff_witness :
  ∃ outs', setRefs out_three demo_objectMaps = Ok outs'.
Proof.
  assert (Hfill : @fill demo_externals demo_filler event_three = Ok out_three)
    by (vm_compute; reflexivity).
  apply (@setRefs_returns_iff demo_externals demo_filler event_three out_three
           demo_objectMaps Hfill).
  eexists. split; [reflexivity|].
  intros iEl e He _.
  destruct iEl as [|[|[|iEl]]]; simpl in He; simplify_eq; vm_compute; eauto.
Defined.
